(** * A shallow embedding of the swap execution core of OKX-DEX-BOT

    Python sources: [okx_dex_bot/utils.py], [okx_dex_bot/dex.py],
    [okx_dex_bot/rpc.py], [okx_dex_bot/okx_client.py], [okx_dex_bot/config.py].

    Python's [decimal.Decimal] is modelled with its default context
    (precision 28, ROUND_HALF_EVEN); network, chain and clock effects are
    oracles indexed by the number of the call, and exceptions are an
    explicit error result. *)

From Stdlib Require Import ZArith QArith Qminmax Lqa List String Ascii Bool Lia.
Import ListNotations.
Open Scope Z_scope.

(** ** Decimal arithmetic (Python's [decimal] module, default context) *)
Module PyDecimal.

  (** A finite decimal: value [coef * 10 ^ dexp]. *)
Record dec := Dec { coef : Z; dexp : Z }.

  (** [getcontext().prec] *)
Definition prec : Z := 28.

Fixpoint ndig (fuel : nat) (z : Z) : Z :=
    match fuel with
    | O => 1
    | S f => if z <? 10 then 1 else 1 + ndig f (z / 10)
    end.

  (** Number of decimal digits of the coefficient [|z|]. *)
Definition ndigits (z : Z) : Z :=
    ndig (S (Z.to_nat (Z.log2 (Z.abs z)))) (Z.abs z).

  (** Keep [c / 10^k], rounding the dropped digits half-to-even. *)
Definition round_half_even (c k : Z) : Z :=
    let p := 10 ^ k in
    let q := c / p in
    let r := c mod p in
    if (p <? 2 * r) || ((2 * r =? p) && Z.odd q) then q + 1 else q.

  (** [Decimal._fix]: round a coefficient longer than [prec] digits. *)
Definition ctx_round (d : dec) : dec :=
    let c := coef d in
    if Z.abs c <? 10 ^ prec then d
    else
      let k := ndigits c - prec in
      let q := round_half_even (Z.abs c) k in
      if q =? 10 ^ prec then Dec (Z.sgn c * 10 ^ (prec - 1)) (dexp d + k + 1)
      else Dec (Z.sgn c * q) (dexp d + k).

  (** [a * b] *)
Definition dmul (a b : dec) : dec :=
    ctx_round (Dec (coef a * coef b) (dexp a + dexp b)).

  (** [a + b] *)
Definition dadd (a b : dec) : dec :=
    let e := Z.min (dexp a) (dexp b) in
    ctx_round (Dec (coef a * 10 ^ (dexp a - e) + coef b * 10 ^ (dexp b - e)) e).

Definition dneg (a : dec) : dec := Dec (- coef a) (dexp a).

  (** [a - b] *)
Definition dsub (a b : dec) : dec := dadd a (dneg b).

  (** [d.quantize(Decimal(10) ** e, rounding=ROUND_DOWN)]; [None] is the
      [InvalidOperation] raised when the result needs more than [prec]
      digits. *)
Definition quantize_down (d : dec) (e : Z) : option dec :=
    let c' := if e <=? dexp d then coef d * 10 ^ (dexp d - e)
              else Z.quot (coef d) (10 ^ (e - dexp d)) in
    if 10 ^ prec <=? Z.abs c' then None else Some (Dec c' e).

  (** [d.to_integral_value(rounding=ROUND_DOWN)] *)
Definition to_integral_down (d : dec) : dec :=
    if 0 <=? dexp d then d else Dec (Z.quot (coef d) (10 ^ (- dexp d))) 0.

  (** [int(d)] *)
Definition to_int (d : dec) : Z :=
    if 0 <=? dexp d then coef d * 10 ^ dexp d
    else Z.quot (coef d) (10 ^ (- dexp d)).

  (** [Decimal(10) ** n] *)
Definition pow10 (n : Z) : dec :=
    if 0 <=? n then ctx_round (Dec (10 ^ n) 0) else Dec 1 n.

  (** Sign tests [d > 0], [d <= 0]. *)
Definition dpos (d : dec) : bool := 0 <? coef d.
Definition dle0 (d : dec) : bool := coef d <=? 0.

  (** The exact rational value of a decimal. *)
Definition dec_Q (d : dec) : Q :=
    if 0 <=? dexp d then inject_Z (coef d * 10 ^ dexp d)
    else coef d # Z.to_pos (10 ^ (- dexp d)).

Definition sumQ (l : list dec) : Q := fold_right (fun d s => dec_Q d + s)%Q 0%Q l.

End PyDecimal.
Import PyDecimal.

(** ** [utils.to_base_units] *)
Module Units.

  (** [to_base_units(amount, decimals)]: the source returns [str] of this
      integer; every caller converts it back with [int]. *)
Definition to_base_units (amount : dec) (decimals : Z) : Z :=
    let q := pow10 decimals in
    to_int (to_integral_down (dmul amount q)).

End Units.

(** ** [dex._build_chunks] *)
Module Chunks.

  (** [Decimal("0.000000000000000001")] has exponent [-18]. *)
Definition q_exp : Z := -18.

  (** The [for i, r in enumerate(ratios)] loop; [acc] is the running sum of
      the parts already produced. *)
Fixpoint build_loop (amount : dec) (ratios : list dec) (acc : dec)
    : option (list dec) :=
    match ratios with
    | [] => Some []
    | [_] =>
        match quantize_down (dsub amount acc) q_exp with
        | Some last => Some [last]
        | None => None
        end
    | r :: rest =>
        match quantize_down (dmul amount r) q_exp with
        | Some p =>
            match build_loop amount rest (dadd acc p) with
            | Some ps => Some (p :: ps)
            | None => None
            end
        | None => None
        end
    end.

  (** [_build_chunks(amount, ratios)]; [None] is a raised
      [InvalidOperation]. *)
Definition build_chunks (amount : dec) (ratios : list dec) : option (list dec) :=
    if dle0 amount then Some []
    else match build_loop amount ratios (Dec 0 0) with
         | Some parts => Some (filter dpos parts)
         | None => None
         end.

  (** [config.CHUNK_PRIMARY_RATIOS] and [config.CHUNK_SECONDARY_RATIOS]. *)
Definition CHUNK_PRIMARY_RATIOS : list dec := [Dec 60 (-2); Dec 30 (-2); Dec 10 (-2)].
Definition CHUNK_SECONDARY_RATIOS : list dec := [Dec 50 (-2); Dec 30 (-2); Dec 20 (-2)].

End Chunks.


(** ** Python string helpers on ASCII strings *)
Module PyStr.

Definition ascii_lower (c : ascii) : ascii :=
    let n := nat_of_ascii c in
    if (65 <=? n)%nat && (n <=? 90)%nat then ascii_of_nat (n + 32) else c.

  (** [s.lower()] *)
Fixpoint lower (s : string) : string :=
    match s with
    | EmptyString => EmptyString
    | String c t => String (ascii_lower c) (lower t)
    end.

  (** [c.isspace()] on ASCII: space, [\t\n\v\f\r] and [\x1c]-[\x1f]. *)
Definition is_space (c : ascii) : bool :=
    let n := nat_of_ascii c in
    (n =? 32)%nat || ((9 <=? n)%nat && (n <=? 13)%nat) || ((28 <=? n)%nat && (n <=? 31)%nat).

Fixpoint lstrip (s : string) : string :=
    match s with
    | EmptyString => EmptyString
    | String c t => if is_space c then lstrip t else s
    end.

Definition rstrip (s : string) : string :=
    string_of_list_ascii (rev (list_ascii_of_string (lstrip
      (string_of_list_ascii (rev (list_ascii_of_string s)))))).

  (** [s.strip()] *)
Definition strip (s : string) : string := rstrip (lstrip s).

  (** [s.startswith(pre)] *)
Definition startswith (pre s : string) : bool := String.prefix pre s.

  (** [needle in hay] *)
Fixpoint contains (needle hay : string) : bool :=
    String.prefix needle hay ||
    match hay with
    | EmptyString => false
    | String _ t => contains needle t
    end.

End PyStr.

(** ** Exceptions and a state-and-exception monad *)
Module PyM.

  (** A Python call either returns a value or raises an exception with a
      message. *)
Inductive res (A : Type) : Type :=
  | Ret (a : A)
  | Exc (msg : string).
Arguments Ret {A} a.
Arguments Exc {A} msg.

Definition M (S A : Type) : Type := S -> res A * S.

Definition ret {S A} (a : A) : M S A := fun s => (Ret a, s).
Definition raise {S A} (msg : string) : M S A := fun s => (Exc msg, s).
Definition bind {S A B} (m : M S A) (k : A -> M S B) : M S B :=
    fun s => match m s with
             | (Ret a, s') => k a s'
             | (Exc e, s') => (Exc e, s')
             end.

Notation "x <- c1 ;; c2" := (bind c1 (fun x => c2))
    (at level 61, c1 at next level, right associativity).
Notation "c1 ;; c2" := (bind c1 (fun _ => c2))
    (at level 61, right associativity).

End PyM.
Import PyM.

(** ** [config.py] constants used by the sell controller *)
Module Config.

Definition RESET_APPROVE_ON_FAIL : bool := true.
Definition REAPPROVE_EVERY_N_FAILURES : nat := 2.
Definition APPROVE_RESET_ERRORS : list string :=
    ["insufficient allowance"; "transfer amount exceeds allowance"; "spender";
     "ERC20: insufficient allowance"; "ERC20: transfer amount exceeds allowance"]%string.
Definition SWAP_SEND_MAX_ATTEMPTS : nat := 3.
Definition CHUNK_MAX_ATTEMPTS : nat := 2.
Definition SECONDARY_EARLY_EXIT_SOLD : nat := 2.

End Config.

(** ** [dex.sell_token_with_retry] and its helpers *)
Module Sell.
Import Config.

  (** Outcome of one [_sell_once] call: [(tx, usdt_back)], or the message
      [str(e)] of the exception it raised. *)
Inductive sell_result :=
  | SellOk (tx : string) (usdt : dec)
  | SellErr (msg : string).

Inductive phase := Direct | Primary | Sub.

  (** Observable effects, in program order. *)
Inductive event :=
  | ESell (ph : phase) (amt : dec) (r : sell_result)  (** a [_sell_once] call *)
  | EReset (amt : dec) (ok : bool)       (** a [_force_reset_allowance] call *)
  | ERotate (ok : bool)                  (** a [rot.rotate_and_connect()] call *)
  | ESplit (chunk : dec).                (** start of a secondary split *)

  (** The outside world: the k-th swap, allowance reset and RPC rotation. *)
Record env := {
    sell_once : nat -> dec -> sell_result;
    reset_ok : nat -> bool;
    rotate_ok : nat -> bool
  }.

Record st := { nsell : nat; nreset : nat; nrot : nat; trace : list event }.

Definition emit (e : event) (s : st) : st :=
    {| nsell := nsell s; nreset := nreset s; nrot := nrot s; trace := trace s ++ [e] |}.

  (** [_maybe_reset_allowance_on_fail]: defined in [dex.py], never called. *)
Definition maybe_reset_allowance_on_fail (msg_lower : string) (attempt : nat) : bool :=
    if negb RESET_APPROVE_ON_FAIL then false
    else if (attempt mod REAPPROVE_EVERY_N_FAILURES =? 0)%nat then true
    else existsb (fun key => PyStr.contains key msg_lower) APPROVE_RESET_ERRORS.

Section Run.
Variable E : env.

Definition sell (ph : phase) (amt : dec) : M st sell_result :=
      fun s =>
        let r := sell_once E (nsell s) amt in
        (Ret r, emit (ESell ph amt r)
                  {| nsell := S (nsell s); nreset := nreset s; nrot := nrot s;
                     trace := trace s |}).

    (** [_maybe_reset_approve_on_error]: the reset's own exception is
        caught. *)
Definition maybe_reset_approve_on_error (err_msg_lower : string) (amt : dec)
      : M st unit :=
      if RESET_APPROVE_ON_FAIL
         && existsb (fun e => PyStr.contains e err_msg_lower) APPROVE_RESET_ERRORS
      then fun s =>
        let ok := reset_ok E (nreset s) in
        (Ret tt, emit (EReset amt ok)
                   {| nsell := nsell s; nreset := S (nreset s); nrot := nrot s;
                      trace := trace s |})
      else ret tt.

Definition rotate_and_connect : M st unit :=
      fun s =>
        let ok := rotate_ok E (nrot s) in
        (if ok then Ret tt else Exc "All RPC endpoints failed to respond"%string,
         emit (ERotate ok)
           {| nsell := nsell s; nreset := nreset s; nrot := S (nrot s);
              trace := trace s |}).

Definition build_chunks_m (amt : dec) (ratios : list dec) : M st (list dec) :=
      match Chunks.build_chunks amt ratios with
      | Some l => ret l
      | None => raise "InvalidOperation"%string
      end.

    (** [for attempt in range(1, CHUNK_MAX_ATTEMPTS + 1)] around
        [_sell_once] ([time.sleep] omitted); [Some] is the [break]. *)
Fixpoint attempts (ph : phase) (amt : dec) (fuel : nat)
      : M st (option (string * dec)) :=
      match fuel with
      | O => ret None
      | S f =>
          r <- sell ph amt ;;
          match r with
          | SellOk tx u => ret (Some (tx, u))
          | SellErr m =>
              maybe_reset_approve_on_error (PyStr.lower m) amt ;;
              rotate_and_connect ;;
              attempts ph amt f
          end
      end.

    (** How a loop ends: [Done] is a [return] from [sell_token_with_retry],
        [Next] falls through to the enclosing loop. *)
Inductive flow := Done (last : string) (total : dec) | Next (last : string) (total : dec).

    (** The [for j, sub_amt in enumerate(secondary)] loop. *)
Fixpoint sub_loop (subs : list dec) (sold : nat) (last : string) (total : dec)
      : M st flow :=
      match subs with
      | [] => ret (Next last total)
      | sub :: rest =>
          r <- attempts Sub sub CHUNK_MAX_ATTEMPTS ;;
          let '(sold_sub, sold', last', total') :=
            match r with
            | Some (tx, u) => (true, S sold, tx, dadd total u)
            | None => (false, sold, last, total)
            end in
          if (SECONDARY_EARLY_EXIT_SOLD <=? sold')%nat then ret (Done last' total')
          else if negb sold_sub then ret (Done last' total')
          else sub_loop rest sold' last' total'
      end.

    (** The [for i, chunk_amt in enumerate(primary_chunks)] loop. *)
Fixpoint primary_loop (chunks : list dec) (last : string) (total : dec)
      : M st (string * dec) :=
      match chunks with
      | [] => ret (last, total)
      | c :: rest =>
          r <- attempts Primary c CHUNK_MAX_ATTEMPTS ;;
          match r with
          | Some (tx, u) => primary_loop rest tx (dadd total u)
          | None =>
              secondary <- build_chunks_m c Chunks.CHUNK_SECONDARY_RATIOS ;;
              (fun s => (Ret tt, emit (ESplit c) s)) ;;
              f <- sub_loop secondary 0 last total ;;
              match f with
              | Done l t => ret (l, t)
              | Next l t => primary_loop rest l t
              end
          end
      end.

    (** [sell_token_with_retry(..., amount_token, ...)]; the trade log
        written after a direct success is not modelled. *)
Definition sell_token_with_retry (amount_token : dec) : M st (string * dec) :=
      r <- sell Direct amount_token ;;
      match r with
      | SellOk tx u => ret (tx, u)
      | SellErr m =>
          maybe_reset_approve_on_error (PyStr.lower m) amount_token ;;
          primary <- build_chunks_m amount_token Chunks.CHUNK_PRIMARY_RATIOS ;;
          primary_loop primary EmptyString (Dec 0 0)
      end.

End Run.

  (** Observers of a trace. *)
Definition sub_ok (e : event) : bool :=
    match e with ESell Sub _ (SellOk _ _) => true | _ => false end.
Definition is_split (e : event) : bool :=
    match e with ESplit _ => true | _ => false end.
Definition is_sell (e : event) : bool :=
    match e with ESell _ _ _ => true | _ => false end.
Definition is_reset (e : event) : bool :=
    match e with EReset _ _ => true | _ => false end.
Definition is_failure (e : event) : bool :=
    match e with ESell _ _ (SellErr _) => true | _ => false end.

  (** Last transaction hash and USDT total of the chunked sells, summed as
      [total_usdt += usdt_back] does. *)
Definition acc_step (a : string * dec) (e : event) : string * dec :=
    match e with
    | ESell Direct _ _ => a
    | ESell _ _ (SellOk tx u) => (tx, dadd (snd a) u)
    | _ => a
    end.
Definition acc_of (t : list event) : string * dec := fold_left acc_step t (EmptyString, Dec 0 0).

Definition init : st := {| nsell := 0; nreset := 0; nrot := 0; trace := [] |}.

  (** Number of sub-chunks sold since the last secondary split, as
      [sold_sub_count] counts them. *)
Definition next_count (c : nat) (e : event) : nat :=
    if is_split e then 0 else if sub_ok e then S c else c.
Fixpoint cur (c : nat) (t : list event) : nat :=
    match t with [] => c | e :: t' => cur (next_count c e) t' end.

  (** [scan c t]: along [t], that count stays below
      [SECONDARY_EARLY_EXIT_SOLD]. *)
Fixpoint scan (c : nat) (t : list event) : bool :=
    (c <? Config.SECONDARY_EARLY_EXIT_SOLD)%nat &&
    match t with [] => true | e :: t' => scan (next_count c e) t' end.

  (** Failed swaps, resets and rotations. *)
Definition quiet (e : event) : bool :=
    match e with
    | ESell _ _ (SellErr _) | EReset _ _ | ERotate _ => true
    | _ => false
    end.

End Sell.

(** ** Concrete runs of the sell controller *)
Module SellScenarios.
Import Sell.

  (** Every swap fails with a message that names no allowance problem. *)
Definition env_reverted : env := {|
    sell_once := fun _ _ => SellErr "execution reverted"%string;
    reset_ok := fun _ => true;
    rotate_ok := fun _ => true |}.

  (** The direct sell and both tries of the first primary chunk fail; every
      later swap succeeds. *)
Definition env_sub_chunks : env := {|
    sell_once := fun k _ =>
      if (k <? 3)%nat then SellErr "execution reverted"%string
      else SellOk "0xab"%string (Dec 5 0);
    reset_ok := fun _ => true;
    rotate_ok := fun _ => true |}.

End SellScenarios.

(** ** [dex.do_swap]: submission with gas bump and RPC rotation *)
Module Swap.

  (** What steps 0-2 of [do_swap] produce: the quote, the approve and the
      [/swap] call, with the [to]/[data]/[gasPrice] fields extracted
      ([parse_int_auto]-ed, [maxFeePerGas] fallback applied). *)
Record swap_tx := {
    tx_gas_price : option Z;   (** [gas_price] before the first attempt *)
    min_receive : Z            (** [int(min_receive)] on success *)
  }.

Record env := {
    prelude : res swap_tx;              (** quote, approve, /swap and the field checks *)
    attempt_hash : nat -> res string;   (** the k-th try block: [Ret tx_hash] when the
                                            receipt has status 1, [Exc e] when it raised *)
    live_gas_price : nat -> option Z;   (** the k-th [w3.eth.gas_price] read in the
                                            handler; [None] when it raised *)
    rotate_ok : nat -> bool             (** the k-th [rot.rotate_and_connect()] *)
  }.

Inductive event :=
  | EAttempt (attempt : nat) (gas_price : option Z)  (** one submission attempt *)
  | ERotate (ok : bool)
  | ESleep.                                          (** [time.sleep(0.7)] *)

Record st := { natt : nat; ngas : nat; nrot : nat; trace : list event }.

Definition init : st := {| natt := 0; ngas := 0; nrot := 0; trace := [] |}.

Section Run.
    (** [int(x * 1.15)] and [int(x * 1.2)] in floating point. *)
Variables (mul115 mul12 : Z -> Z).
Variable E : env.

Definition truthy (g : option Z) : option Z :=
      match g with Some z => if z =? 0 then None else Some z | None => None end.

Definition try_send (attempt : nat) (gas_price : option Z) : M st (res string) :=
      fun s => (Ret (attempt_hash E (natt s)),
                {| natt := S (natt s); ngas := ngas s; nrot := nrot s;
                   trace := trace s ++ [EAttempt attempt gas_price] |}).

    (** The gas bump of the [except] branch; its own exceptions give
        [None]. *)
Definition bump_gas (gas_price : option Z) : M st (option Z) :=
      match truthy gas_price with
      | Some g => ret (Some (mul115 g))
      | None => fun s =>
          (Ret (match truthy (live_gas_price E (ngas s)) with
                | Some gp => Some (mul12 gp)
                | None => None
                end),
           {| natt := natt s; ngas := S (ngas s); nrot := nrot s; trace := trace s |})
      end.

Definition rotate_and_connect : M st unit :=
      fun s =>
        let ok := rotate_ok E (nrot s) in
        (if ok then Ret tt else Exc "All RPC endpoints failed to respond"%string,
         {| natt := natt s; ngas := ngas s; nrot := S (nrot s);
            trace := trace s ++ [ERotate ok] |}).

Definition sleep : M st unit :=
      fun s => (Ret tt, {| natt := natt s; ngas := ngas s; nrot := nrot s;
                           trace := trace s ++ [ESleep] |}).

    (** [for attempt in range(1, 3)]: [fuel] iterations from [attempt]. *)
Fixpoint send_loop (attempt fuel : nat) (gas_price : option Z)
      (last_error : option string) (tx : swap_tx) : M st (string * Z) :=
      match fuel with
      | O => raise (match last_error with
                    | Some e => e
                    | None => "Swap failed after retries"%string
                    end)
      | S f =>
          r <- try_send attempt gas_price ;;
          match r with
          | Ret h => ret (h, min_receive tx)
          | Exc e =>
              gp <- bump_gas gas_price ;;
              rotate_and_connect ;;
              sleep ;;
              send_loop (S attempt) f gp (Some e) tx
          end
      end.

    (** [do_swap(..., max_attempts=max_attempts)]: the send loop runs
        [range(1, 3)] whatever [max_attempts] is. *)
Definition do_swap (max_attempts : Z) : M st (string * Z) :=
      fun s =>
        match prelude E with
        | Exc m => (Exc m, s)
        | Ret tx => send_loop 1 2 (tx_gas_price tx) None tx s
        end.

End Run.

Definition is_attempt (e : event) : bool :=
    match e with EAttempt _ _ => true | _ => false end.

  (** Every submission fails; rotations succeed. *)
Definition env_all_fail : env := {|
    prelude := Ret {| tx_gas_price := Some 3000000000; min_receive := 0 |};
    attempt_hash := fun _ => Exc "Swap failed: 0xdead"%string;
    live_gas_price := fun _ => Some 3000000000;
    rotate_ok := fun _ => true |}.

Definition mul115_floor (z : Z) : Z := z * 115 / 100.
Definition mul12_floor (z : Z) : Z := z * 12 / 10.

End Swap.

(** ** [rpc.RpcRotator.connect] *)
Module Rpc.

Record rotator := { urls : list string; idx : nat; proxy : bool }.

  (** The world: whether [WebsocketProvider] imported, and, on the k-th try
      of a [connect] call, [w3.is_connected()] ([None]: it raised) and
      whether [w3.eth.block_number] answered. *)
Record env := {
    ws_available : bool;
    is_connected : nat -> string -> option bool;
    block_number_ok : nat -> string -> bool
  }.

  (** [_make_web3(url) is not None] *)
Definition make_web3 (E : env) (proxy : bool) (url : string) : bool :=
    if PyStr.startswith "ws://" url || PyStr.startswith "wss://" url
    then negb proxy && ws_available E
    else true.

  (** The [try] block: [is_connected()] and then [block_number]. *)
Definition responds (E : env) (k : nat) (url : string) : bool :=
    match is_connected E k url with
    | Some true => block_number_ok E k url
    | _ => false
    end.

  (** [while attempts < tries]; returns the result, the final [self.idx] and
      the URLs tried, in order. *)
Fixpoint connect_loop (E : env) (r : rotator) (idx attempts fuel : nat)
    : res string * nat * list string :=
    match fuel with
    | O => (Exc "All RPC endpoints failed to respond"%string, idx, [])
    | S f =>
        let url := nth (idx mod List.length (urls r)) (urls r) EmptyString in
        if make_web3 E (proxy r) url && responds E attempts url
        then (Ret url, S idx, [url])
        else
          let '(res, idx', tried) := connect_loop E r (S idx) (S attempts) f in
          (res, idx', url :: tried)
    end.

  (** [connect(tries)]: [tries or len(self.urls)]. *)
Definition connect (E : env) (r : rotator) (tries : option nat)
    : res string * nat * list string :=
    let n := match tries with
             | None | Some O => List.length (urls r)
             | Some k => k
             end in
    connect_loop E r (idx r) 0 n.

Definition env_all_down : env := {|
    ws_available := true;
    is_connected := fun _ _ => Some false;
    block_number_ok := fun _ _ => true |}.

End Rpc.

(** ** [dex.maybe_approve] and [dex._force_reset_allowance] *)
Module Approve.
Import Config.

  (** The first entry of the [/approve-transaction] answer: the spender
      [dexContractAddress] and the amount its [data] calldata approves. *)
Record item := { spender : string; approve_amount : Z }.

Inductive payload :=
  | PRaises (msg : string)   (** [okx.get] raised *)
  | PEmpty                   (** [item] is falsy *)
  | PItem (it : item).

  (** The world: the k-th [/approve-transaction] answer for an amount, the
      k-th approve transaction (receipt status 1 or not, and its hash) and
      the k-th [rot.rotate_and_connect()]. *)
Record env := {
    approve_api : nat -> Z -> payload;
    tx_ok : nat -> bool;
    tx_hash : nat -> string;
    rotate_ok : nat -> bool
  }.

  (** Effects in program order: an approve transaction [approve(spender,
      amount)] and whether it succeeded, an RPC rotation, a sleep. *)
Inductive event :=
  | ETx (spender : string) (amount : Z) (ok : bool)
  | ERotate (ok : bool)
  | ESleep.

  (** [allowance(owner, spender)] on chain and the call counters. *)
Record st := {
    allowance : string -> Z;
    napi : nat; ntx : nat; nrot : nat;
    trace : list event
  }.

Section Run.
Variable E : env.

Definition call_api (amount_base : Z) : M st payload :=
      fun s =>
        let p := approve_api E (napi s) amount_base in
        let s' := {| allowance := allowance s; napi := S (napi s); ntx := ntx s;
                     nrot := nrot s; trace := trace s |} in
        match p with
        | PRaises m => (Exc m, s')
        | _ => (Ret p, s')
        end.

Definition get_allowance (sp : string) : M st Z :=
      fun s => (Ret (allowance s sp), s).

    (** One approve transaction: [Some tx_hash] when its receipt has status 1
        (and the allowance is then [amount]), [None] when it failed. *)
Definition approve_tx (sp : string) (amount : Z) : M st (option string) :=
      fun s =>
        let ok := tx_ok E (ntx s) in
        (Ret (if ok then Some (tx_hash E (ntx s)) else None),
         {| allowance := if ok then (fun x => if String.eqb x sp then amount else allowance s x)
                         else allowance s;
            napi := napi s; ntx := S (ntx s); nrot := nrot s;
            trace := trace s ++ [ETx sp amount ok] |}).

Definition rotate_and_connect : M st unit :=
      fun s =>
        let ok := rotate_ok E (nrot s) in
        (if ok then Ret tt else Exc "All RPC endpoints failed to respond"%string,
         {| allowance := allowance s; napi := napi s; ntx := ntx s; nrot := S (nrot s);
            trace := trace s ++ [ERotate ok] |}).

Definition sleep : M st unit :=
      fun s => (Ret tt, {| allowance := allowance s; napi := napi s; ntx := ntx s;
                           nrot := nrot s; trace := trace s ++ [ESleep] |}).

    (** The retry loop shared by [_send_approve_data] ([range(1, 5)]) and
        the re-approve phase of [_force_reset_allowance]
        ([range(1, SWAP_SEND_MAX_ATTEMPTS + 1)]); the gas-price bump of the
        handler has its exceptions caught and does not change the outcome.
        [_send_approve_data] sleeps after a success ([sleep_ok]), the
        re-approve phase returns at once; [fail_msg] is the error of a
        failed receipt. *)
Fixpoint send_loop (sleep_ok : bool) (fail_msg : string) (it : item) (fuel : nat)
      (last_err : string) : M st string :=
      match fuel with
      | O => raise last_err
      | S f =>
          h <- approve_tx (spender it) (approve_amount it) ;;
          match h with
          | Some h => (if sleep_ok then sleep else ret tt) ;; ret h
          | None =>
              rotate_and_connect ;;
              sleep ;;
              send_loop sleep_ok fail_msg it f fail_msg
          end
      end.

    (** [maybe_approve(..., amount_base)] *)
Definition maybe_approve (amount_base : Z) : M st (option string) :=
      p <- call_api amount_base ;;
      match p with
      | PItem it =>
          current <- get_allowance (spender it) ;;
          if amount_base <=? current then ret None
          else
            (if 0 <? current then
               h0 <- approve_tx (spender it) 0 ;;
               match h0 with
               | Some _ => ret tt
               | None => raise "Approve(0) failed"%string
               end
             else ret tt) ;;
            h <- send_loop true "Approve tx status=0"%string it 4 "Re-approve failed"%string ;;
            ret (Some h)
      | _ => ret None
      end.

    (** [_okx_approve_payload]: an empty answer raises. *)
Definition okx_approve_payload (amount_base : Z) : M st item :=
      p <- call_api amount_base ;;
      match p with
      | PItem it => ret it
      | _ => raise "approve-transaction returned empty"%string
      end.

    (** [_force_reset_allowance(..., amount_base)]: the approve(0) phase
        catches its own failure. *)
Definition force_reset_allowance (amount_base : Z) : M st unit :=
      it <- okx_approve_payload amount_base ;;
      _ <- approve_tx (spender it) 0 ;;
      sleep ;;
      _ <- send_loop false "Approve(new) status=0"%string it SWAP_SEND_MAX_ATTEMPTS
             "Re-approve failed"%string ;;
      ret tt.

End Run.

Definition is_tx (e : event) : bool :=
    match e with ETx _ _ _ => true | _ => false end.

Definition is_reapprove (sp : string) (amount : Z) (e : event) : bool :=
    match e with ETx sp' a _ => String.eqb sp' sp && (a =? amount) | _ => false end.

Definition ROUTER : string := "0x2c34A2Fb1d0b4f55de51E1d0bDEfaDDce6b7cDd6".

  (** The aggregator answers with [ROUTER] approving 1000; approve(0) and
      the first re-approve fail and so does the rotation after it. *)
Definition env_rotation_down : env := {|
    approve_api := fun _ _ => PItem {| spender := ROUTER; approve_amount := 1000 |};
    tx_ok := fun _ => false;
    tx_hash := fun _ => "0xbeef"%string;
    rotate_ok := fun _ => false |}.

Definition st0 : st := {|
    allowance := fun _ => 0; napi := 0; ntx := 0; nrot := 0; trace := [] |}.

End Approve.

(** ** [okx_client.OkxClient._send_with_retries] *)
Module Http.
Open Scope Q_scope.

  (** The part of a [requests.Response] the retry loop reads. *)
Record response := { status_code : Z; retry_after : option string }.

Inductive event :=
  | ESend (attempt : nat)   (** [self.session.send(prepped)] *)
  | ESleep (secs : Q).      (** [time.sleep(sleep_s)] *)

  (** [resp.raise_for_status()]: an [HTTPError] for 4xx and 5xx. *)
Definition raise_for_status (r : response) : res unit :=
    if ((400 <=? status_code r) && (status_code r <? 600))%Z
    then Exc "HTTPError"%string else Ret tt.

Definition is_digit (c : ascii) : bool :=
    (48 <=? nat_of_ascii c)%nat && (nat_of_ascii c <=? 57)%nat.

  (** [ra.isdigit()] on ASCII: non-empty and all digits. *)
Definition isdigit (s : string) : bool :=
    match s with
    | EmptyString => false
    | _ => forallb is_digit (list_ascii_of_string s)
    end.

  (** [int(ra)] for a digit string. *)
Definition digits_int (s : string) : Z :=
    fold_left (fun acc c => acc * 10 + (Z.of_nat (nat_of_ascii c) - 48))%Z
              (list_ascii_of_string s) 0%Z.

  (** [sleep_s] before the jitter. *)
Definition backoff (base_sleep : Q) (attempt : nat) (r : response) : Q :=
    match retry_after r with
    | Some ra => if isdigit ra then inject_Z (digits_int ra)
                 else Qmin (base_sleep * inject_Z (2 ^ Z.of_nat (attempt - 1))) 8
    | None => Qmin (base_sleep * inject_Z (2 ^ Z.of_nat (attempt - 1))) 8
    end.

Section Run.
    (** The response of the k-th send and the k-th [random.uniform(0, 0.5)]. *)
Variable send : nat -> response.
Variable jitter : nat -> Q.
Variable base_sleep : Q.

    (** [for attempt in range(attempt, ...)] with [fuel] sends left;
        [last] is [resp] from the previous iteration ([None]: unbound). The
        value [None] is the implicit [return None] after the loop. *)
Fixpoint retry_loop (attempt fuel : nat) (last : option response)
      : res (option response) * list event :=
      match fuel with
      | O =>
          match last with
          | None => (Exc "UnboundLocalError"%string, [])
          | Some r =>
              (match raise_for_status r with
               | Ret _ => Ret None
               | Exc m => Exc m
               end, [])
          end
      | S f =>
          let r := send attempt in
          if negb (status_code r =? 429)%Z then
            (match raise_for_status r with
             | Ret _ => Ret (Some r)
             | Exc m => Exc m
             end, [ESend attempt])
          else
            let d := backoff base_sleep attempt r + jitter attempt in
            let '(res, evs) := retry_loop (S attempt) f (Some r) in
            (res, ESend attempt :: ESleep d :: evs)
      end.

Definition send_with_retries (max_retries : nat) : res (option response) * list event :=
      retry_loop 1 max_retries None.

End Run.

  (** The events of the rate-limited sends [a, ..., a + k - 1], each
      followed by its sleep. *)
Definition limited_events (send : nat -> response) (jitter : nat -> Q) (base_sleep : Q)
    (a k : nat) : list event :=
    flat_map (fun j => [ESend j; ESleep (backoff base_sleep j (send j) + jitter j)]) (seq a k).

  (** What [_send_with_retries] does with the first response that is not
      429. *)
Definition final_result (r : response) : res (option response) :=
    match raise_for_status r with
    | Ret _ => Ret (Some r)
    | Exc m => Exc m
    end.

Definition not_modified : response := {| status_code := 304; retry_after := None |}.

  (** Two rate-limited answers, the second with [Retry-After: 2], then 200. *)
Definition two_limited (j : nat) : response :=
    if (j <=? 2)%nat
    then {| status_code := 429; retry_after := if (j =? 2)%nat then Some "2"%string else None |}
    else {| status_code := 200; retry_after := None |}.

End Http.

(** ** [utils.parse_int_auto] *)
Module ParseInt.

  (** The Python values [parse_int_auto] distinguishes; [PObj] is any other
      object, with the outcome of [int(x)] on it. *)
Inductive pyval :=
  | PNone
  | PInt (z : Z)
  | PBool (b : bool)
  | PStr (s : string)
  | PObj (int_x : res Z).

  (** The value of an ASCII digit or letter, as [int] reads it. *)
Definition digit_value (c : ascii) : option Z :=
    let n := nat_of_ascii c in
    if (48 <=? n)%nat && (n <=? 57)%nat then Some (Z.of_nat n - 48)%Z
    else if (97 <=? n)%nat && (n <=? 122)%nat then Some (Z.of_nat n - 87)%Z
    else if (65 <=? n)%nat && (n <=? 90)%nat then Some (Z.of_nat n - 55)%Z
    else None.

  (** Digits of [base], single underscores between digits. *)
Fixpoint dig_loop (base : Z) (l : list ascii) (acc : Z) (after_us : bool) : option Z :=
    match l with
    | [] => if after_us then None else Some acc
    | c :: t =>
        if Ascii.eqb c "_"%char then
          if after_us then None else dig_loop base t acc true
        else
          match digit_value c with
          | Some d => if (d <? base)%Z then dig_loop base t (acc * base + d)%Z false else None
          | None => None
          end
    end.

Definition parse_digits (base : Z) (l : list ascii) : option Z :=
    match l with
    | [] => None
    | c :: _ => if Ascii.eqb c "_"%char then None else dig_loop base l 0%Z false
    end.

  (** The [0x]/[0X] prefix [int(s, 16)] accepts, with one optional
      underscore after it. *)
Definition strip_hex_prefix (l : list ascii) : list ascii :=
    match l with
    | c0 :: cx :: t =>
        if Ascii.eqb c0 "0"%char && (Ascii.eqb cx "x"%char || Ascii.eqb cx "X"%char) then
          match t with
          | c :: t' => if Ascii.eqb c "_"%char then t' else t
          | [] => t
          end
        else l
    | _ => l
    end.

  (** [int(s, base)] for [base] 10 or 16 on a str; [None] is [ValueError]. *)
Definition py_int (s : string) (base : Z) : option Z :=
    let l := list_ascii_of_string (PyStr.strip s) in
    let '(neg, l) :=
      match l with
      | c :: t => if Ascii.eqb c "-"%char then (true, t)
                  else if Ascii.eqb c "+"%char then (false, t)
                  else (false, l)
      | [] => (false, l)
      end in
    let l := if (base =? 16)%Z then strip_hex_prefix l else l in
    match parse_digits base l with
    | Some v => Some (if neg then - v else v)%Z
    | None => None
    end.

  (** [parse_int_auto(x)] *)
Definition parse_int_auto (x : pyval) : res (option Z) :=
    match x with
    | PNone => Ret None
    | PInt z => Ret (Some z)
    | PBool b => Ret (Some (if b then 1 else 0)%Z)
    | PStr x =>
        let s := PyStr.lower (PyStr.strip x) in
        if PyStr.startswith "0x" s then Ret (py_int s 16) else Ret (py_int s 10)
    | PObj r =>
        match r with
        | Ret z => Ret (Some z)
        | Exc _ => Ret None
        end
    end.

Definition digit_of (c : ascii) : Z :=
    match digit_value c with Some d => d | None => 0%Z end.

  (** Value of a list of digit characters in [base], most significant
      first. *)
Definition digits_value (base : Z) (ds : list ascii) : Z :=
    fold_left (fun acc c => acc * base + digit_of c)%Z ds 0%Z.

End ParseInt.

(** ** [rpc.RpcRotator.__init__] *)
Module RpcInit.

  (** [u.startswith("http://") or ... or u.startswith("wss://")] *)
Definition has_scheme (u : string) : bool :=
    PyStr.startswith "http://" u || PyStr.startswith "https://" u
    || PyStr.startswith "ws://" u || PyStr.startswith "wss://" u.

  (** [(u or "").strip()] *)
Definition stripped (u : option string) : string :=
    PyStr.strip (match u with Some v => v | None => EmptyString end).

  (** A non-blank entry with its scheme added. *)
Definition with_scheme (u : string) : string :=
    if has_scheme u then u else ("https://" ++ u)%string.

  (** The [for u in urls] loop building [norm]. *)
Fixpoint norm_loop (us : list (option string)) (norm : list string) : list string :=
    match us with
    | [] => norm
    | u :: t =>
        let v := stripped u in
        if String.eqb v EmptyString then norm_loop t norm
        else
          let v := with_scheme v in
          if existsb (String.eqb v) norm then norm_loop t norm
          else norm_loop t (norm ++ [v])
    end.

  (** [RpcRotator(urls, proxy)]; [self.proxy] is kept as its truth value. *)
Definition rotator_init (us : list (option string)) (proxy : option string) : res Rpc.rotator :=
    match norm_loop us [] with
    | [] => Exc "No RPC URLs provided"%string
    | norm => Ret {| Rpc.urls := norm; Rpc.idx := 0;
                     Rpc.proxy := match proxy with
                                  | Some p => negb (String.eqb p EmptyString)
                                  | None => false
                                  end |}
    end.

End RpcInit.

(* ================================================================== *)
(** * Proofs *)

(** ** Decimal lemmas *)
Module DecimalFacts.

Lemma ctx_round_small (d : dec) :
    Z.abs (coef d) < 10 ^ prec -> ctx_round d = d.
  Proof.
    intros H. unfold ctx_round.
    destruct (Z.abs (coef d) <? 10 ^ prec) eqn:E; [reflexivity|].
    apply Z.ltb_ge in E. lia.
  Qed.

Lemma dec_Q_nonpos_exp (r : dec) :
    dexp r <= 0 -> (dec_Q r == coef r # Z.to_pos (10 ^ (- dexp r)))%Q.
  Proof.
    intros H. unfold dec_Q.
    destruct (0 <=? dexp r) eqn:E.
    - apply Z.leb_le in E. assert (dexp r = 0) as -> by lia.
      simpl. unfold Qeq, inject_Z. simpl. lia.
    - reflexivity.
  Qed.

Lemma pow10_pos (j : Z) : 0 <= j -> 0 < 10 ^ j.
  Proof. intros; apply Z.pow_pos_nonneg; lia. Qed.

Lemma quot_le_Q (t c j : Z) :
    0 <= t -> 0 <= c -> 0 <= j ->
    (inject_Z (Z.quot (t * c) (10 ^ j)) <= inject_Z t * (c # Z.to_pos (10 ^ j)))%Q.
  Proof.
    intros Ht Hc Hj.
    pose proof (pow10_pos j Hj) as Hp.
    rewrite Z.quot_div_nonneg by nia.
    unfold Qle, Qmult, inject_Z. simpl.
    rewrite Z2Pos.id by lia.
    pose proof (Z.mul_div_le (t * c) (10 ^ j) Hp). nia.
  Qed.

Lemma sumQ_grid (ps : list dec) :
    Forall (fun p => dexp p = -18) ps ->
    (sumQ ps == (fold_right Z.add 0%Z (map coef ps) # Z.to_pos (10 ^ 18)))%Q.
  Proof.
    induction 1 as [|p ps Hp _ IH]; simpl.
    - reflexivity.
    - rewrite IH. unfold dec_Q. rewrite Hp. simpl.
      unfold Qeq, Qplus. simpl. ring.
  Qed.

End DecimalFacts.

(** ** [_build_chunks] on amounts with at most 18 fractional digits *)
Module ChunksFacts.
Import DecimalFacts Chunks.

Lemma quantize_grid (x : Z) :
    Z.abs x < 10 ^ prec -> quantize_down (Dec x (-18)) q_exp = Some (Dec x (-18)).
  Proof.
    intros H. unfold quantize_down, q_exp. cbn [coef dexp].
    rewrite Z.leb_refl, Z.sub_diag, Z.pow_0_r, Z.mul_1_r.
    destruct (10 ^ prec <=? Z.abs x) eqn:E; [apply Z.leb_le in E; lia|reflexivity].
  Qed.

Lemma dsub_grid (t : Z) (acc : dec) :
    (acc = Dec (coef acc) (-18) \/ acc = Dec 0 0) ->
    Z.abs (t - coef acc) < 10 ^ prec ->
    dsub (Dec t (-18)) acc = Dec (t - coef acc) (-18).
  Proof.
    intros [Ha|Ha] Hs; rewrite Ha in *; simpl in *;
      unfold dsub, dadd, dneg; simpl; rewrite ctx_round_small; simpl;
      try (f_equal; ring); try (simpl; lia).
  Qed.

Lemma dadd_grid (acc : dec) (p : Z) :
    (acc = Dec (coef acc) (-18) \/ acc = Dec 0 0) ->
    Z.abs (coef acc + p) < 10 ^ prec ->
    dadd acc (Dec p (-18)) = Dec (coef acc + p) (-18).
  Proof.
    intros [Ha|Ha] Hs; rewrite Ha in *; simpl in *;
      unfold dadd; simpl; rewrite ctx_round_small; simpl;
      try (f_equal; ring); try (simpl; lia).
  Qed.

Lemma dmul_quantize (t : Z) (r : dec) :
    0 <= t -> 0 <= coef r -> dexp r <= 0 -> t * coef r < 10 ^ prec ->
    quantize_down (dmul (Dec t (-18)) r) q_exp
    = Some (Dec (Z.quot (t * coef r) (10 ^ (- dexp r))) (-18)).
  Proof.
    intros Ht Hc Hk Hs. destruct r as [c k]; cbn [coef dexp] in *.
    unfold dmul. cbn [coef dexp]. rewrite ctx_round_small by (cbn [coef]; lia).
    unfold quantize_down, q_exp. cbn [coef dexp].
    assert (Hq : 0 <= Z.quot (t * c) (10 ^ (- k)) <= t * c).
    { pose proof (pow10_pos (- k) ltac:(lia)).
      rewrite Z.quot_div_nonneg by nia.
      split; [apply Z.div_pos; nia|apply Z.div_le_upper_bound; nia]. }
    destruct (-18 <=? -18 + k) eqn:E.
    - apply Z.leb_le in E. assert (k = 0) by lia. subst k.
      rewrite Z.add_0_r, Z.sub_diag, Z.pow_0_r, Z.mul_1_r, Z.opp_0, Z.pow_0_r, Z.quot_1_r.
      destruct (10 ^ prec <=? Z.abs (t * c)) eqn:F; [apply Z.leb_le in F; lia|reflexivity].
    - replace (-18 - (-18 + k)) with (- k) by lia.
      destruct (10 ^ prec <=? Z.abs (Z.quot (t * c) (10 ^ (- k)))) eqn:F;
        [apply Z.leb_le in F; lia|reflexivity].
  Qed.

Lemma build_loop_grid (t : Z) (L : list dec) (rl acc : dec) :
    0 < t < 10 ^ prec ->
    (acc = Dec (coef acc) (-18) \/ acc = Dec 0 0) ->
    0 <= coef acc ->
    Forall (fun r => 0 <= coef r /\ dexp r <= 0 /\ t * coef r < 10 ^ prec) L ->
    (inject_Z (coef acc) + inject_Z t * sumQ L <= inject_Z t)%Q ->
    exists lead,
      build_loop (Dec t (-18)) (L ++ [rl]) acc
      = Some (lead ++ [Dec (t - coef acc - fold_right Z.add 0 (map coef lead)) (-18)])
      /\ Forall (fun p => dexp p = -18 /\ 0 <= coef p) lead
      /\ coef acc + fold_right Z.add 0 (map coef lead) <= t.
  Proof.
    revert acc. induction L as [|r L IH]; intros acc Ht Hacc Ha HL HQ.
    - exists []. simpl in HQ.
      assert (Hle : (inject_Z (coef acc) <= inject_Z t)%Q) by lra.
      rewrite <- Zle_Qle in Hle.
      simpl. rewrite dsub_grid by (auto; lia).
      rewrite quantize_grid by lia.
      split; [do 3 f_equal; lia|split; [constructor|simpl; lia]].
    - inversion HL as [|? ? [Hc [Hk Hs]] HL']; subst.
      set (p := Z.quot (t * coef r) (10 ^ (- dexp r))).
      assert (Hp : (inject_Z p <= inject_Z t * dec_Q r)%Q).
      { rewrite dec_Q_nonpos_exp by exact Hk. apply quot_le_Q; lia. }
      assert (Hp0 : 0 <= p).
      { unfold p. rewrite Z.quot_div_nonneg by (try nia; apply pow10_pos; lia).
        apply Z.div_pos; [nia|apply pow10_pos; lia]. }
      assert (HsL : (0 <= sumQ L)%Q).
      { clear -HL'. induction HL' as [|x l [Hx [Hkx _]] _ IHl]; simpl.
        - apply Qle_refl.
        - rewrite dec_Q_nonpos_exp by exact Hkx.
          assert (0 <= coef x # Z.to_pos (10 ^ (- dexp x)))%Q.
          { unfold Qle. simpl. lia. }
          lra. }
      assert (HtQ : (0 <= inject_Z t)%Q) by (unfold Qle; simpl; lia).
      assert (HsLt : (0 <= inject_Z t * sumQ L)%Q) by (apply Qmult_le_0_compat; auto).
      assert (Hsum : (inject_Z (coef acc + p) + inject_Z t * sumQ L <= inject_Z t)%Q).
      { simpl in HQ. rewrite inject_Z_plus.
        rewrite Qmult_plus_distr_r in HQ. lra. }
      assert (Hap : coef acc + p <= t).
      { rewrite Zle_Qle. lra. }
      destruct (IH (Dec (coef acc + p) (-18))) as [lead [Hb [Hf Hl]]];
        simpl; auto; try lia.
      exists (Dec p (-18) :: lead).
      assert (Hne : L ++ [rl] <> []) by (destruct L; discriminate).
      change ((r :: L) ++ [rl]) with (r :: (L ++ [rl])).
      destruct (L ++ [rl]) as [|y ys] eqn:Ey; [congruence|].
      rewrite dmul_quantize by lia. fold p.
      rewrite dadd_grid by (auto; lia).
      rewrite Hb. simpl. split.
      + replace (t - (coef acc + p) - fold_right Z.add 0 (map coef lead))
          with (t - coef acc - (p + fold_right Z.add 0 (map coef lead))) by lia.
        reflexivity.
      + split; [constructor; [simpl; split; lia|exact Hf]|simpl in Hl; lia].
  Qed.

End ChunksFacts.

Module ChunksSum.
Import DecimalFacts Chunks ChunksFacts.

Lemma sumQ_filter_pos (xs : list dec) :
    Forall (fun p => dexp p = -18 /\ 0 <= coef p) xs ->
    (sumQ (filter dpos xs) == sumQ xs)%Q.
  Proof.
    induction 1 as [|x xs [Hx Hc] _ IH]; simpl; [reflexivity|].
    unfold dpos. destruct (0 <? coef x) eqn:E; simpl.
    - rewrite IH. reflexivity.
    - apply Z.ltb_ge in E. assert (coef x = 0) by lia.
      assert (Hz : (dec_Q x == 0)%Q) by (unfold dec_Q; rewrite Hx, H; reflexivity).
      rewrite Hz, IH. ring.
  Qed.

Lemma sumQ_app (xs ys : list dec) : (sumQ (xs ++ ys) == sumQ xs + sumQ ys)%Q.
  Proof.
    induction xs as [|x xs IH]; simpl.
    - ring.
    - rewrite IH. ring.
  Qed.

End ChunksSum.

(** ** The sell controller *)
Module SellFacts.
Import Config Sell.

Lemma scan_app (c : nat) (t u : list event) :
    scan c (t ++ u) = scan c t && scan (cur c t) u.
  Proof.
    revert c. induction t as [|e t IH]; intros c; simpl.
    - destruct u; simpl; destruct (c <? SECONDARY_EARLY_EXIT_SOLD)%nat; reflexivity.
    - rewrite IH. destruct (c <? SECONDARY_EARLY_EXIT_SOLD)%nat; reflexivity.
  Qed.

Lemma cur_app (c : nat) (t u : list event) : cur c (t ++ u) = cur (cur c t) u.
  Proof. revert c. induction t as [|e t IH]; intros c; simpl; auto. Qed.

Lemma scan_lt (c : nat) (t : list event) :
    scan c t = true -> (c < SECONDARY_EARLY_EXIT_SOLD)%nat.
  Proof.
    destruct t; simpl; intros H; apply andb_true_iff in H as [H _];
      apply Nat.ltb_lt; exact H.
  Qed.

Lemma scan_cur_lt (c : nat) (t : list event) :
    scan c t = true -> (cur c t < SECONDARY_EARLY_EXIT_SOLD)%nat.
  Proof.
    intros H. rewrite <- (app_nil_r t) in H. rewrite scan_app in H.
    apply andb_true_iff in H as [_ H]. exact (scan_lt _ _ H).
  Qed.

Lemma quiet_scan (c : nat) (u : list event) :
    Forall (fun e => quiet e = true) u ->
    scan c u = (c <? SECONDARY_EARLY_EXIT_SOLD)%nat /\ cur c u = c.
  Proof.
    induction 1 as [|e u He _ [IH1 IH2]]; simpl.
    - destruct (c <? SECONDARY_EARLY_EXIT_SOLD)%nat; auto.
    - assert (next_count c e = c) as ->.
      { unfold next_count; destruct e as [ph a [|]| | |]; simpl in He;
          try discriminate; try destruct ph; reflexivity. }
      rewrite IH1, IH2. destruct (c <? SECONDARY_EARLY_EXIT_SOLD)%nat; auto.
  Qed.

Lemma acc_of_app (t u : list event) :
    acc_of (t ++ u) = fold_left acc_step u (acc_of t).
  Proof. unfold acc_of. apply fold_left_app. Qed.

Lemma quiet_acc (a : string * dec) (u : list event) :
    Forall (fun e => quiet e = true) u -> fold_left acc_step u a = a.
  Proof.
    intros H. revert a. induction H as [|e u He _ IH]; intros a; simpl; auto.
    rewrite <- (IH a) at 2. f_equal.
    destruct e as [ph x [|]| | |]; simpl in He; try discriminate;
      try destruct ph; reflexivity.
  Qed.

  (** No secondary split in [mid], and [scan] holds: the count stays below
      the threshold. *)
Lemma scan_no_split (c : nat) (mid : list event) :
    forallb (fun e => negb (is_split e)) mid = true ->
    scan c mid = true ->
    (c + List.length (filter sub_ok mid) < SECONDARY_EARLY_EXIT_SOLD)%nat.
  Proof.
    revert c. induction mid as [|e mid IH]; intros c Hs Hc.
    - simpl. rewrite Nat.add_0_r. exact (scan_lt _ _ Hc).
    - simpl in Hs, Hc. apply andb_true_iff in Hs as [He Hs].
      apply andb_true_iff in Hc as [_ Hc].
      specialize (IH _ Hs Hc). unfold next_count in IH.
      destruct (is_split e); [discriminate|].
      simpl. destruct (sub_ok e); simpl in *; lia.
  Qed.

Lemma scan_decomp (pre mid post : list event) (x : dec) :
    scan 0 (pre ++ ESplit x :: mid ++ post) = true ->
    forallb (fun e => negb (is_split e)) mid = true ->
    (List.length (filter sub_ok mid) < SECONDARY_EARLY_EXIT_SOLD)%nat.
  Proof.
    intros H Hm. rewrite scan_app in H. apply andb_true_iff in H as [_ H].
    simpl in H. apply andb_true_iff in H as [_ H].
    rewrite scan_app in H. apply andb_true_iff in H as [H _].
    exact (scan_no_split 0 mid Hm H).
  Qed.

Section Loops.
Variable E : env.

Lemma maybe_reset_trace (m : string) (amt : dec) (s : st) :
      exists u, Forall (fun e => quiet e = true) u /\
        maybe_reset_approve_on_error E m amt s
        = (Ret tt, {| nsell := nsell s; nreset := nreset s + List.length u;
                      nrot := nrot s; trace := trace s ++ u |}).
    Proof.
      unfold maybe_reset_approve_on_error.
      destruct (RESET_APPROVE_ON_FAIL && _).
      - exists [EReset amt (reset_ok E (nreset s))]. split; [repeat constructor|].
        unfold emit. simpl. repeat f_equal. lia.
      - exists []. split; [constructor|]. unfold ret. rewrite app_nil_r, Nat.add_0_r.
        destruct s; reflexivity.
    Qed.

Lemma attempts_trace (ph : phase) (amt : dec) (fuel : nat) (s s' : st) r :
      attempts E ph amt fuel s = (r, s') ->
      exists u, Forall (fun e => quiet e = true) u /\
        match r with
        | Ret (Some (tx, v)) => trace s' = trace s ++ u ++ [ESell ph amt (SellOk tx v)]
        | _ => trace s' = trace s ++ u
        end.
    Proof.
      revert s. induction fuel as [|f IH]; intros s H; simpl in H.
      - inversion H; subst. exists []. split; [constructor|]. simpl.
        rewrite app_nil_r. reflexivity.
      - unfold bind at 1, sell in H.
        destruct (sell_once E (nsell s) amt) as [tx v|m] eqn:Hs.
        + inversion H; subst. exists []. split; [constructor|]. reflexivity.
        + unfold bind at 1 in H.
          destruct (maybe_reset_trace (PyStr.lower m) amt
                      (emit (ESell ph amt (SellErr m))
                         {| nsell := S (nsell s); nreset := nreset s;
                            nrot := nrot s; trace := trace s |})) as [u1 [Hu1 Hr]].
          rewrite Hr in H. unfold bind at 1, rotate_and_connect in H. simpl in H.
          destruct (rotate_ok E (nrot s)) eqn:Hrot.
          * apply IH in H as [u2 [Hu2 Ht]]. simpl in Ht.
            exists ((ESell ph amt (SellErr m) :: u1) ++ ERotate true :: u2).
            split.
            -- apply Forall_app. split; constructor; auto.
            -- destruct r as [[[tx v]|]|e]; rewrite Ht; repeat rewrite <- app_assoc;
                 reflexivity.
          * inversion H; subst. simpl.
            exists ((ESell ph amt (SellErr m) :: u1) ++ [ERotate false]).
            split.
            -- apply Forall_app. split; repeat constructor; auto.
            -- repeat rewrite <- app_assoc. reflexivity.
    Qed.

Lemma acc_ok (t : list event) (ph : phase) (amt : dec) (tx : string) (v : dec) :
      ph <> Direct ->
      acc_of (t ++ [ESell ph amt (SellOk tx v)]) = (tx, dadd (snd (acc_of t)) v).
    Proof.
      intros Hph. rewrite acc_of_app. simpl. destruct ph; congruence.
    Qed.

Lemma quiet_extend (t u : list event) :
      Forall (fun e => quiet e = true) u -> scan 0 t = true ->
      scan 0 (t ++ u) = true /\ cur 0 (t ++ u) = cur 0 t /\ acc_of (t ++ u) = acc_of t.
    Proof.
      intros Hu Ht. destruct (quiet_scan (cur 0 t) u Hu) as [H1 H2].
      rewrite scan_app, cur_app, acc_of_app, H1, H2, quiet_acc by exact Hu.
      rewrite Ht. pose proof (scan_cur_lt _ _ Ht).
      apply Nat.ltb_lt in H. rewrite H. auto.
    Qed.

Lemma sub_loop_inv (subs : list dec) (sold : nat) (last : string) (total : dec)
          (s s' : st) r :
      sub_loop E subs sold last total s = (r, s') ->
      scan 0 (trace s) = true -> cur 0 (trace s) = sold ->
      (last, total) = acc_of (trace s) ->
      match r with
      | Ret (Next l t) => scan 0 (trace s') = true /\ (l, t) = acc_of (trace s')
      | Ret (Done l t) =>
          (l, t) = acc_of (trace s') /\
          (scan 0 (trace s') = true \/
           exists t1 e, trace s' = t1 ++ [e] /\ sub_ok e = true /\ scan 0 t1 = true)
      | Exc _ => scan 0 (trace s') = true
      end.
    Proof.
      revert sold last total s. induction subs as [|sub rest IH];
        intros sold last total s H Hs Hc Ha; cbn [sub_loop] in H.
      - inversion H; subst. auto.
      - unfold bind at 1 in H.
        destruct (attempts E Sub sub CHUNK_MAX_ATTEMPTS s) as [r1 s1] eqn:Hat.
        apply attempts_trace in Hat as [u [Hu Ht]].
        destruct (quiet_extend (trace s) u Hu Hs) as [Hs1 [Hc1 Ha1]].
        pose proof (scan_cur_lt _ _ Hs) as Hlt. rewrite Hc in Hlt.
        destruct r1 as [[[tx v]|]|e].
        + rewrite app_assoc in Ht.
          assert (Hacc : (tx, dadd total v) = acc_of (trace s1)).
          { rewrite Ht, acc_ok by discriminate. rewrite Ha1, <- Ha. reflexivity. }
          cbv beta iota in H.
          destruct (SECONDARY_EARLY_EXIT_SOLD <=? S sold)%nat eqn:Hle.
          * inversion H; subst. split; auto. right.
            exists (trace s ++ u), (ESell Sub sub (SellOk tx v)). auto.
          * cbv beta iota in H. apply (IH _ _ _ _ H).
            -- rewrite Ht, scan_app, Hs1, Hc1, Hc. simpl.
               unfold next_count. simpl.
               apply Nat.leb_gt in Hle. apply Nat.ltb_lt in Hle.
               apply Nat.ltb_lt in Hlt. rewrite Hle, Hlt. reflexivity.
            -- rewrite Ht, cur_app, Hc1, Hc. reflexivity.
            -- exact Hacc.
        + cbv beta iota in H.
          destruct (SECONDARY_EARLY_EXIT_SOLD <=? sold)%nat eqn:Hle;
            [apply Nat.leb_le in Hle; lia|].
          cbv beta iota in H. inversion H; subst. rewrite Ht, Ha1. auto.
        + cbv beta iota in H. inversion H; subst. rewrite Ht. exact Hs1.
    Qed.

Lemma primary_loop_inv (chunks : list dec) (last : string) (total : dec)
          (s s' : st) r :
      primary_loop E chunks last total s = (r, s') ->
      scan 0 (trace s) = true -> (last, total) = acc_of (trace s) ->
      match r with
      | Ret lt =>
          lt = acc_of (trace s') /\
          (scan 0 (trace s') = true \/
           exists t1 e, trace s' = t1 ++ [e] /\ sub_ok e = true /\ scan 0 t1 = true)
      | Exc _ => scan 0 (trace s') = true
      end.
    Proof.
      revert last total s. induction chunks as [|c rest IH];
        intros last total s H Hs Ha; cbn [primary_loop] in H.
      - inversion H; subst. auto.
      - unfold bind at 1 in H.
        destruct (attempts E Primary c CHUNK_MAX_ATTEMPTS s) as [r1 s1] eqn:Hat.
        apply attempts_trace in Hat as [u [Hu Ht]].
        destruct (quiet_extend (trace s) u Hu Hs) as [Hs1 [Hc1 Ha1]].
        pose proof (scan_cur_lt _ _ Hs) as Hlt. apply Nat.ltb_lt in Hlt.
        destruct r1 as [[[tx v]|]|e].
        + cbv beta iota in H. rewrite app_assoc in Ht.
          apply (IH _ _ _ H).
          * rewrite Ht, scan_app, Hs1, Hc1. simpl. unfold next_count. simpl.
            rewrite Hlt. reflexivity.
          * rewrite Ht, acc_ok by discriminate. rewrite Ha1, <- Ha. reflexivity.
        + cbv beta iota in H. unfold build_chunks_m in H.
          destruct (Chunks.build_chunks c Chunks.CHUNK_SECONDARY_RATIOS) as [subs|].
          * unfold bind at 1, ret in H. unfold bind at 1 in H.
            unfold bind at 1 in H.
            set (s2 := emit (ESplit c) s1) in H.
            assert (Hs2 : scan 0 (trace s2) = true /\ cur 0 (trace s2) = 0%nat
                          /\ (last, total) = acc_of (trace s2)).
            { unfold s2, emit. cbn [trace]. rewrite Ht. split; [|split].
              - rewrite scan_app, Hs1. simpl. rewrite Hc1, Hlt. reflexivity.
              - rewrite cur_app. reflexivity.
              - rewrite acc_of_app, Ha1. exact Ha. }
            destruct Hs2 as [Hs2 [Hc2 Ha2]].
            destruct (sub_loop E subs 0 last total s2) as [r3 s3] eqn:Hsub.
            apply sub_loop_inv in Hsub; auto.
            destruct r3 as [[l t|l t]|e].
            -- inversion H; subst. exact Hsub.
            -- destruct Hsub as [Hs3 Ha3]. apply (IH _ _ _ H Hs3 Ha3).
            -- inversion H; subst. exact Hsub.
          * unfold raise in H. inversion H; subst. rewrite Ht. exact Hs1.
        + cbv beta iota in H. inversion H; subst. rewrite Ht. exact Hs1.
    Qed.

Lemma sell_token_final (amt : dec) r (s' : st) :
      sell_token_with_retry E amt init = (r, s') ->
      scan 0 (trace s') = true \/
      exists t1 e, trace s' = t1 ++ [e] /\ sub_ok e = true /\ scan 0 t1 = true
                   /\ r = Ret (acc_of (trace s')).
    Proof.
      intros H. unfold sell_token_with_retry, bind at 1, sell in H.
      destruct (sell_once E (nsell init) amt) as [tx v|m] eqn:Hs.
      - inversion H; subst. left. reflexivity.
      - unfold bind at 1 in H.
        set (s0 := emit (ESell Direct amt (SellErr m)) _) in H.
        destruct (maybe_reset_trace (PyStr.lower m) amt s0) as [u [Hu Hr]].
        rewrite Hr in H. unfold bind at 1, build_chunks_m in H.
        set (s1 := {| nsell := nsell s0; nreset := nreset s0 + List.length u;
                      nrot := nrot s0; trace := trace s0 ++ u |}) in H.
        assert (Hs1 : scan 0 (trace s1) = true /\ (EmptyString, Dec 0 0) = acc_of (trace s1)).
        { change (trace s1) with ([ESell Direct amt (SellErr m)] ++ u).
          destruct (quiet_extend [ESell Direct amt (SellErr m)] u Hu eq_refl)
            as [H1 [_ H3]].
          split; [exact H1|]. rewrite H3. reflexivity. }
        destruct Hs1 as [Hs1 Ha1].
        destruct (Chunks.build_chunks amt Chunks.CHUNK_PRIMARY_RATIOS) as [prim|].
        + unfold ret in H.
          apply primary_loop_inv in H; auto.
          destruct r as [lt|e].
          * destruct H as [Hlt [Hsc|[t1 [e [Ht [He Hsc]]]]]]; [left; exact Hsc|].
            right. exists t1, e. subst. auto.
          * left. exact H.
        + unfold raise in H. inversion H; subst. left. exact Hs1.
    Qed.

End Loops.

End SellFacts.

(** ** [RpcRotator.connect] *)
Module RpcFacts.
Import Rpc.

Lemma connect_loop_all_fail (E : env) (r : rotator) :
    urls r <> [] ->
    (forall k u, In u (urls r) -> make_web3 E (proxy r) u && responds E k u = false) ->
    forall f idx att,
      connect_loop E r idx att f
      = (Exc "All RPC endpoints failed to respond"%string, (idx + f)%nat,
         map (fun i => nth ((idx + i) mod List.length (urls r)) (urls r) EmptyString)
             (seq 0 f)).
  Proof.
    intros Hne Hall f. induction f as [|f IH]; intros idx att.
    - simpl. rewrite Nat.add_0_r. reflexivity.
    - cbn [connect_loop].
      assert (Hn : List.length (urls r) <> 0%nat)
        by (destruct (urls r); simpl; [congruence|lia]).
      rewrite Hall by (apply nth_In, Nat.mod_upper_bound; exact Hn).
      rewrite IH. cbn [seq map]. rewrite Nat.add_0_r.
      rewrite <- seq_shift, map_map.
      replace (S idx + f)%nat with (idx + S f)%nat by lia.
      do 2 f_equal.
      apply map_ext. intros i. f_equal. f_equal. lia.
  Qed.

End RpcFacts.

(** ** Approve transactions *)
Module ApproveFacts.
Import Approve.

  (** The retry loop succeeds exactly when some attempt [k] within the
      bound succeeds, every earlier attempt having failed and the rotation
      after it having succeeded. *)
Lemma send_loop_ok (E : env) b m it f last (s : st) :
    (exists h, fst (send_loop E b m it f last s) = Ret h)
    <-> exists k, (k < f)%nat /\ tx_ok E (ntx s + k) = true
            /\ forall j, (j < k)%nat -> tx_ok E (ntx s + j) = false
                                   /\ rotate_ok E (nrot s + j) = true.
  Proof.
    revert last s. induction f as [|f IH]; intros last s.
    - simpl. split; [intros [h H]; discriminate | intros [k [Hk _]]; lia].
    - cbn [send_loop]. unfold bind, approve_tx, rotate_and_connect, sleep, ret.
      simpl.
      destruct (tx_ok E (ntx s)) eqn:Ht.
      + split; [intros _ | intros _; destruct b; eexists; reflexivity].
        exists 0%nat. rewrite Nat.add_0_r. split; [lia|split; [exact Ht|intros; lia]].
      + simpl. destruct (rotate_ok E (nrot s)) eqn:Hr.
        * rewrite IH. cbn [ntx nrot]. split.
          -- intros [k [Hk [Hok Hj]]]. exists (S k).
             rewrite Nat.add_succ_r. split; [lia|split; [exact Hok|]].
             intros [|j] Hjk.
             ++ rewrite !Nat.add_0_r. auto.
             ++ rewrite !Nat.add_succ_r. apply Hj. lia.
          -- intros [[|k] [Hk [Hok Hj]]].
             ++ rewrite Nat.add_0_r in Hok. congruence.
             ++ exists k. rewrite Nat.add_succ_r in Hok.
                split; [lia|split; [exact Hok|]].
                intros j Hjk. specialize (Hj (S j)).
                rewrite !Nat.add_succ_r in Hj. apply Hj. lia.
        * simpl. split; [intros [h H]; discriminate|].
          intros [[|k] [Hk [Hok Hj]]].
          -- rewrite Nat.add_0_r in Hok. congruence.
          -- destruct (Hj 0%nat) as [_ Hr0]; [lia|].
             rewrite Nat.add_0_r in Hr0. congruence.
  Qed.

  (** The loop only appends to the trace, starting with its first
      transaction. *)
Lemma send_loop_trace (E : env) b m it f last (s : st) :
    exists rest, trace (snd (send_loop E b m it f last s)) = trace s ++ rest.
  Proof.
    revert last s. induction f as [|f IH]; intros last s.
    - exists []. rewrite app_nil_r. reflexivity.
    - cbn [send_loop]. unfold bind, approve_tx, rotate_and_connect, sleep, ret.
      simpl. destruct (tx_ok E (ntx s)); simpl;
        [destruct b|destruct (rotate_ok E (nrot s))]; simpl.
      + eexists. rewrite <- app_assoc. reflexivity.
      + eexists. reflexivity.
      + edestruct IH as [rest ->]. cbn [trace].
        eexists. rewrite <- !app_assoc. reflexivity.
      + eexists. rewrite <- app_assoc. reflexivity.
  Qed.

Lemma send_loop_first (E : env) b m it f last (s : st) :
    exists ok rest, trace (snd (send_loop E b m it (S f) last s))
                    = trace s ++ ETx (spender it) (approve_amount it) ok :: rest.
  Proof.
    cbn [send_loop]. unfold bind at 1, approve_tx.
    set (s1 := {| allowance := _; napi := _; ntx := _; nrot := _; trace := _ |}).
    destruct (tx_ok E (ntx s)).
    - exists true.
      destruct (((if b then sleep else ret tt) ;; ret _) s1) as [r s2] eqn:H2.
      assert (exists rest, trace s2 = trace s1 ++ rest) as [rest Hr].
      { destruct b; unfold bind, sleep, ret in H2; inversion H2; subst; cbn [trace];
          eexists; [reflexivity|rewrite app_nil_r; reflexivity]. }
      exists rest. cbn [snd]. rewrite Hr. subst s1. cbn [trace].
      rewrite <- app_assoc. reflexivity.
    - exists false. unfold bind, rotate_and_connect.
      destruct (rotate_ok E (nrot s1)); cbn [snd].
      + unfold sleep. cbn [snd].
        edestruct send_loop_trace as [rest ->]. cbn [trace].
        subst s1. cbn [trace]. eexists. rewrite <- !app_assoc. reflexivity.
      + subst s1. cbn [trace]. eexists. rewrite <- !app_assoc. reflexivity.
  Qed.

Lemma force_reset_unfold (E : env) amt (s : st) it :
    approve_api E (napi s) amt = PItem it ->
    force_reset_allowance E amt s =
    match send_loop E false "Approve(new) status=0"%string it Config.SWAP_SEND_MAX_ATTEMPTS
            "Re-approve failed"%string
            {| allowance := if tx_ok E (ntx s)
                            then (fun x => if String.eqb x (spender it) then 0 else allowance s x)
                            else allowance s;
               napi := S (napi s); ntx := S (ntx s); nrot := nrot s;
               trace := (trace s ++ [ETx (spender it) 0 (tx_ok E (ntx s))]) ++ [ESleep] |} with
    | (Ret _, s3) => (Ret tt, s3)
    | (Exc e, s3) => (Exc e, s3)
    end.
  Proof.
    intros Ha. unfold force_reset_allowance, okx_approve_payload, bind, call_api,
      approve_tx, sleep, ret.
    rewrite Ha. reflexivity.
  Qed.

Lemma force_reset_no_payload (E : env) amt (s : st) :
    (forall it, approve_api E (napi s) amt <> PItem it) ->
    exists e, fst (force_reset_allowance E amt s) = Exc e.
  Proof.
    intros Hn. unfold force_reset_allowance, okx_approve_payload, bind, call_api.
    destruct (approve_api E (napi s) amt) as [m| |it] eqn:Ha.
    - eexists. reflexivity.
    - eexists. reflexivity.
    - exfalso. exact (Hn it eq_refl).
  Qed.

  (** One [maybe_approve] call whose spender already has the allowance. *)
Lemma maybe_approve_enough (E : env) amt (s : st) it :
    approve_api E (napi s) amt = PItem it ->
    amt <= allowance s (spender it) ->
    maybe_approve E amt s
    = (Ret None, {| allowance := allowance s; napi := S (napi s); ntx := ntx s;
                    nrot := nrot s; trace := trace s |}).
  Proof.
    intros Ha Hl. unfold maybe_approve, bind, call_api, get_allowance, ret.
    rewrite Ha. cbn [allowance]. apply Z.leb_le in Hl. rewrite Hl. reflexivity.
  Qed.

End ApproveFacts.

(** ** The 429 retry loop *)
Module HttpFacts.
Import Http.

Section Loop.
Variables (send : nat -> response) (jitter : nat -> Q) (base_sleep : Q).

Lemma retry_first_other : forall k a f last,
      (k < f)%nat ->
      (forall j, (a <= j < a + k)%nat -> status_code (send j) = 429%Z) ->
      status_code (send (a + k)) <> 429%Z ->
      retry_loop send jitter base_sleep a f last
      = (final_result (send (a + k)),
         limited_events send jitter base_sleep a k ++ [ESend (a + k)]).
    Proof.
      induction k as [|k IH]; intros a f last Hk Hl Hn;
        (destruct f as [|f]; [lia|]); cbn [retry_loop].
      - rewrite Nat.add_0_r in *.
        destruct (negb (status_code (send a) =? 429)%Z) eqn:E.
        + reflexivity.
        + apply negb_false_iff, Z.eqb_eq in E. contradiction.
      - assert (Ha : status_code (send a) = 429%Z) by (apply Hl; lia).
        destruct (negb (status_code (send a) =? 429)%Z) eqn:E;
          [rewrite Ha in E; discriminate|].
        rewrite (IH (S a) f (Some (send a))); [| lia | intros j Hj; apply Hl; lia
                                                | replace (S a + k)%nat with (a + S k)%nat by lia; exact Hn].
        replace (S a + k)%nat with (a + S k)%nat by lia. reflexivity.
    Qed.

Lemma retry_all_limited : forall f a last,
      (0 < f)%nat ->
      (forall j, (a <= j < a + f)%nat -> status_code (send j) = 429%Z) ->
      retry_loop send jitter base_sleep a f last
      = (Exc "HTTPError"%string, limited_events send jitter base_sleep a f).
    Proof.
      induction f as [|f IH]; intros a last Hf Hl; [lia|].
      cbn [retry_loop].
      assert (Ha : status_code (send a) = 429%Z) by (apply Hl; lia).
      destruct (negb (status_code (send a) =? 429)%Z) eqn:E;
        [rewrite Ha in E; discriminate|].
      destruct f as [|f].
      - cbn [retry_loop]. unfold raise_for_status. rewrite Ha. reflexivity.
      - rewrite (IH (S a) (Some (send a))); [reflexivity | lia | intros j Hj; apply Hl; lia].
    Qed.

End Loop.

End HttpFacts.

(** ** [parse_int_auto] on strings *)
Module ParseIntFacts.
Import ParseInt.

Lemma digit_not_space c d : digit_value c = Some d -> PyStr.is_space c = false.
  Proof.
    unfold digit_value, PyStr.is_space. set (n := nat_of_ascii c).
    intros H. destruct (_ || _ || _) eqn:E; [|reflexivity]. exfalso.
    rewrite !orb_true_iff, !andb_true_iff, Nat.eqb_eq, !Nat.leb_le in E.
    repeat match type of H with
           | context [if ?b then _ else _] => destruct b eqn:?
           end; try discriminate;
      repeat match goal with
             | Hb : (_ && _)%bool = true |- _ => apply andb_true_iff in Hb; destruct Hb
             | Hb : (_ <=? _)%nat = true |- _ => apply Nat.leb_le in Hb
             end; lia.
  Qed.

Lemma digit_not_underscore c d : digit_value c = Some d -> Ascii.eqb c "_"%char = false.
  Proof.
    intros H. destruct (Ascii.eqb c "_"%char) eqn:E; [|reflexivity].
    apply Ascii.eqb_eq in E. subst c. discriminate.
  Qed.

Lemma dig_loop_digits base : forall h acc b,
    Forall (fun c => exists d, digit_value c = Some d /\ (d < base)%Z) h ->
    (h <> [] \/ b = false) ->
    dig_loop base h acc b = Some (fold_left (fun a c => a * base + digit_of c)%Z h acc).
  Proof.
    induction h as [|c t IH]; intros acc b HF Hne.
    - destruct Hne as [H|H]; [congruence|subst; reflexivity].
    - inversion HF as [|? ? [d [Hd Hb]] Ht]; subst.
      cbn [dig_loop]. rewrite (digit_not_underscore c d Hd), Hd.
      apply Z.ltb_lt in Hb. rewrite Hb.
      rewrite IH by (auto). cbn [fold_left]. unfold digit_of. rewrite Hd. reflexivity.
  Qed.

Lemma dig_loop_bad base c : forall h acc b,
    In c h -> digit_value c = None -> Ascii.eqb c "_"%char = false ->
    dig_loop base h acc b = None.
  Proof.
    induction h as [|c' t IH]; intros acc b Hin Hd Hu; [destruct Hin|].
    destruct Hin as [<-|Hin].
    - cbn [dig_loop]. rewrite Hu, Hd. reflexivity.
    - cbn [dig_loop]. destruct (Ascii.eqb c' "_"%char).
      + destruct b; [reflexivity|]. apply IH; assumption.
      + destruct (digit_value c'); [|reflexivity].
        destruct (_ <? base)%Z; [apply IH; assumption|reflexivity].
  Qed.

Lemma lstrip_nonspace (s : string) :
    Forall (fun x => PyStr.is_space x = false) (list_ascii_of_string s) ->
    PyStr.lstrip s = s.
  Proof.
    destruct s as [|c t]; [reflexivity|]. intros H. inversion H; subst.
    simpl. rewrite H2. reflexivity.
  Qed.

Lemma strip_nonspace (s : string) :
    Forall (fun x => PyStr.is_space x = false) (list_ascii_of_string s) ->
    PyStr.strip s = s.
  Proof.
    intros H. unfold PyStr.strip. rewrite lstrip_nonspace by exact H.
    unfold PyStr.rstrip. rewrite lstrip_nonspace.
    - rewrite list_ascii_of_string_of_list_ascii, rev_involutive.
      apply string_of_list_ascii_of_string.
    - rewrite list_ascii_of_string_of_list_ascii. apply Forall_rev. exact H.
  Qed.

Lemma in_lstrip c : forall s,
    In c (list_ascii_of_string s) -> PyStr.is_space c = false ->
    In c (list_ascii_of_string (PyStr.lstrip s)).
  Proof.
    induction s as [|c0 t IH]; intros Hin Hs; [destruct Hin|].
    simpl. destruct (PyStr.is_space c0) eqn:E.
    - destruct Hin as [<-|Hin]; [congruence|]. apply IH; assumption.
    - exact Hin.
  Qed.

Lemma in_strip c s :
    In c (list_ascii_of_string s) -> PyStr.is_space c = false ->
    In c (list_ascii_of_string (PyStr.strip s)).
  Proof.
    intros Hin Hs. unfold PyStr.strip, PyStr.rstrip.
    rewrite list_ascii_of_string_of_list_ascii, <- in_rev.
    apply in_lstrip; [|exact Hs].
    rewrite list_ascii_of_string_of_list_ascii, <- in_rev.
    apply in_lstrip; assumption.
  Qed.

Lemma strip_hex_prefix_keeps c l :
    In c l -> digit_value c = None -> Ascii.eqb c "_"%char = false ->
    In c (strip_hex_prefix l).
  Proof.
    intros Hin Hd Hu. unfold strip_hex_prefix.
    destruct l as [|c0 [|cx t]]; try exact Hin.
    destruct (Ascii.eqb c0 "0"%char && _) eqn:E; [|exact Hin].
    apply andb_true_iff in E as [E0 Ex]. apply Ascii.eqb_eq in E0; subst c0.
    destruct Hin as [<-|[<-|Hin]]; [discriminate|
      apply orb_true_iff in Ex as [Ex|Ex]; apply Ascii.eqb_eq in Ex; subst; discriminate|].
    destruct t as [|c1 t']; [destruct Hin|].
    destruct (Ascii.eqb c1 "_"%char) eqn:Eu; [|exact Hin].
    destruct Hin as [<-|Hin]; [congruence|exact Hin].
  Qed.

Lemma py_int_bad c s base :
    In c (list_ascii_of_string s) -> digit_value c = None -> PyStr.is_space c = false ->
    ~ In c ["_"; "+"; "-"]%char ->
    py_int s base = None.
  Proof.
    intros Hin Hd Hs Hn.
    assert (Hu : Ascii.eqb c "_"%char = false)
      by (destruct (Ascii.eqb c "_"%char) eqn:E; [apply Ascii.eqb_eq in E; subst; simpl in Hn; tauto|reflexivity]).
    pose proof (in_strip c s Hin Hs) as Hin'.
    unfold py_int.
    destruct (list_ascii_of_string (PyStr.strip s)) as [|c0 t] eqn:El; [destruct Hin'|].
    assert (Hsg : In c (snd (if Ascii.eqb c0 "-"%char then (true, t)
                             else if Ascii.eqb c0 "+"%char then (false, t) else (false, c0 :: t)))).
    { destruct (Ascii.eqb c0 "-"%char) eqn:Em; [|destruct (Ascii.eqb c0 "+"%char) eqn:Ep].
      - apply Ascii.eqb_eq in Em; subst c0. destruct Hin' as [<-|H]; [simpl in Hn; tauto|exact H].
      - apply Ascii.eqb_eq in Ep; subst c0. destruct Hin' as [<-|H]; [simpl in Hn; tauto|exact H].
      - exact Hin'. }
    destruct (if Ascii.eqb c0 "-"%char then (true, t)
              else if Ascii.eqb c0 "+"%char then (false, t) else (false, c0 :: t)) as [neg l].
    cbn [snd] in Hsg.
    assert (Hl : In c (if (base =? 16)%Z then strip_hex_prefix l else l))
      by (destruct (base =? 16)%Z; [apply strip_hex_prefix_keeps|]; assumption).
    destruct (if (base =? 16)%Z then strip_hex_prefix l else l) as [|c1 t1]; [destruct Hl|].
    unfold parse_digits. destruct (Ascii.eqb c1 "_"%char); [reflexivity|].
    rewrite (dig_loop_bad base c); auto.
  Qed.

End ParseIntFacts.

(* ================================================================== *)
(** * Claims *)



(** C4: in [sell_token_with_retry], once the sub-chunks sold since the last
    secondary split reach [SECONDARY_EARLY_EXIT_SOLD], nothing else happens
    (no swap, reset or rotation follows in the trace) and the call returns
    the last transaction hash and the accumulated USDT total. *)
Theorem C4_secondary_early_exit (E : Sell.env) (amt : dec) r (s' : Sell.st)
        (pre mid post : list Sell.event) (x : dec) :
  Sell.sell_token_with_retry E amt Sell.init = (r, s') ->
  Sell.trace s' = pre ++ Sell.ESplit x :: mid ++ post ->
  forallb (fun e => negb (Sell.is_split e)) mid = true ->
  (Config.SECONDARY_EARLY_EXIT_SOLD <= List.length (filter Sell.sub_ok mid))%nat ->
  post = [] /\ r = Ret (Sell.acc_of (Sell.trace s')).
Proof.
  intros H Ht Hm Hc.
  destruct (SellFacts.sell_token_final E amt r s' H) as [Hs|[t1 [e [Ht1 [He [Hs Hr]]]]]].
  - rewrite Ht in Hs. pose proof (SellFacts.scan_decomp _ _ _ _ Hs Hm). lia.
  - split; [|exact Hr].
    destruct post as [|p post'] using rev_ind; [reflexivity|].
    exfalso. clear IHpost'.
    rewrite Ht1 in Ht.
    replace (pre ++ Sell.ESplit x :: mid ++ post' ++ [p])
      with ((pre ++ Sell.ESplit x :: mid ++ post') ++ [p]) in Ht
      by (repeat (rewrite <- app_assoc; simpl); reflexivity).
    apply app_inj_tail in Ht as [Ht _]. subst t1.
    pose proof (SellFacts.scan_decomp _ _ _ _ Hs Hm). lia.
Qed.

(** C4 witness: the direct sell and the first primary chunk fail, the first
    two sub-chunks sell, and the run stops there. *)
Lemma C4_secondary_early_exit_witness :
  let '(r, s') := Sell.sell_token_with_retry SellScenarios.env_sub_chunks (Dec 100 0) Sell.init in
  r = Ret (Sell.acc_of (Sell.trace s')).
Proof.
  destruct (Sell.sell_token_with_retry SellScenarios.env_sub_chunks (Dec 100 0) Sell.init)
    as [r s'] eqn:Hrun.
  refine (proj2 (C4_secondary_early_exit SellScenarios.env_sub_chunks (Dec 100 0) r s'
            (firstn 5 (Sell.trace s')) (skipn 6 (Sell.trace s')) []
            (Dec 60000000000000000000 (-18)) Hrun _ _ _)).
  - vm_compute in Hrun. inversion Hrun. vm_compute. reflexivity.
  - vm_compute in Hrun. inversion Hrun. vm_compute. reflexivity.
  - vm_compute in Hrun. inversion Hrun. vm_compute. apply le_n.
Defined.

(** C2 (code bug): [_maybe_reset_approve_on_error] resets the allowance only
    on an allowance-error message; the failure-count rule of
    [REAPPROVE_EVERY_N_FAILURES] lives in [_maybe_reset_allowance_on_fail],
    which nothing calls. With every swap failing with ["execution
    reverted"], five failures happen and no reset is made, although the
    helper says a reset is due at the second failure. *)
Lemma C2_no_periodic_reset :
  let '(r, s') := Sell.sell_token_with_retry SellScenarios.env_reverted (Dec 100 0) Sell.init in
  List.length (filter Sell.is_failure (Sell.trace s')) = 5%nat
  /\ existsb Sell.is_reset (Sell.trace s') = false
  /\ Sell.maybe_reset_allowance_on_fail "execution reverted"%string
       Config.REAPPROVE_EVERY_N_FAILURES = true.
Proof. vm_compute. auto. Qed.


(** C6 (code bug): [to_base_units] multiplies in the 28-digit decimal
    context before truncating; the product is rounded half-even first, so
    for [12345678901.999999999999999999] at 18 decimals the result is
    larger than [amount * 10^18]. *)
Lemma C6_to_base_units_rounds_up :
  Units.to_base_units (Dec 12345678901999999999999999999 (-18)) 18
  = 12345678902000000000000000000
  /\ (dec_Q (Dec 12345678901999999999999999999 (-18)) * inject_Z (10 ^ 18)
      < inject_Z (Units.to_base_units (Dec 12345678901999999999999999999 (-18)) 18))%Q.
Proof. split; vm_compute; reflexivity. Qed.


(** C5: when no endpoint can be built and answer [is_connected()] and
    [block_number], [connect()] without [tries] raises the all-endpoints
    error after exactly [len(urls)] tries, of the URLs
    [urls[(idx + i) % len(urls)]] for [i = 0 .. len(urls) - 1], and leaves
    the cursor at [idx + len(urls)]. *)
Theorem C5_connect_all_down (E : Rpc.env) (r : Rpc.rotator) :
  Rpc.urls r <> [] ->
  (forall k u, In u (Rpc.urls r) ->
     Rpc.make_web3 E (Rpc.proxy r) u && Rpc.responds E k u = false) ->
  Rpc.connect E r None
  = (Exc "All RPC endpoints failed to respond"%string,
     (Rpc.idx r + List.length (Rpc.urls r))%nat,
     map (fun i => nth ((Rpc.idx r + i) mod List.length (Rpc.urls r)) (Rpc.urls r) EmptyString)
         (seq 0 (List.length (Rpc.urls r)))).
Proof.
  intros Hne Hall. unfold Rpc.connect.
  apply RpcFacts.connect_loop_all_fail; assumption.
Qed.

(** C5 witness: an HTTP endpoint that does not connect and a WS endpoint
    skipped because a proxy is set, with the cursor at 3. *)
Lemma C5_connect_all_down_witness :
  Rpc.connect Rpc.env_all_down
    {| Rpc.urls := ["https://rpc.a"; "wss://rpc.b"]%string; Rpc.idx := 3; Rpc.proxy := true |} None
  = (Exc "All RPC endpoints failed to respond"%string, 5%nat,
     ["wss://rpc.b"; "https://rpc.a"]%string).
Proof.
  apply (C5_connect_all_down Rpc.env_all_down
           {| Rpc.urls := ["https://rpc.a"; "wss://rpc.b"]%string; Rpc.idx := 3; Rpc.proxy := true |}).
  - discriminate.
  - intros k u Hin. simpl in Hin. destruct Hin as [<-|[<-|[]]]; vm_compute; reflexivity.
Defined.

(** C7: when the allowance of the spender named by the aggregator already
    covers the requested amount, [maybe_approve] returns [None] and sends
    no transaction and no rotation (the trace and the allowances are
    unchanged); a second call with the same amount does the same. *)
Theorem C7_maybe_approve_noop (E : Approve.env) (s : Approve.st) (amt : Z)
        (it1 it2 : Approve.item) :
  Approve.approve_api E (Approve.napi s) amt = Approve.PItem it1 ->
  Approve.approve_api E (S (Approve.napi s)) amt = Approve.PItem it2 ->
  amt <= Approve.allowance s (Approve.spender it1) ->
  amt <= Approve.allowance s (Approve.spender it2) ->
  let '(r1, s1) := Approve.maybe_approve E amt s in
  let '(r2, s2) := Approve.maybe_approve E amt s1 in
  r1 = Ret None /\ Approve.trace s1 = Approve.trace s
  /\ r2 = Ret None /\ Approve.trace s2 = Approve.trace s
  /\ Approve.allowance s2 = Approve.allowance s.
Proof.
  intros H1 H2 H3 H4.
  rewrite (ApproveFacts.maybe_approve_enough E amt s it1 H1 H3).
  rewrite (ApproveFacts.maybe_approve_enough E amt
             {| Approve.allowance := Approve.allowance s; Approve.napi := S (Approve.napi s);
                Approve.ntx := Approve.ntx s; Approve.nrot := Approve.nrot s;
                Approve.trace := Approve.trace s |} it2 H2 H4).
  cbn. auto.
Qed.

(** C7 witness: the router already holds an allowance of 5000; 1000 is
    requested twice. *)
Lemma C7_maybe_approve_noop_witness :
  let s := {| Approve.allowance := fun _ => 5000; Approve.napi := 0; Approve.ntx := 0;
              Approve.nrot := 0; Approve.trace := [] |} in
  let '(r1, s1) := Approve.maybe_approve Approve.env_rotation_down 1000 s in
  let '(r2, s2) := Approve.maybe_approve Approve.env_rotation_down 1000 s1 in
  r1 = Ret None /\ Approve.trace s1 = Approve.trace s
  /\ r2 = Ret None /\ Approve.trace s2 = Approve.trace s
  /\ Approve.allowance s2 = Approve.allowance s.
Proof.
  intros s.
  apply (C7_maybe_approve_noop Approve.env_rotation_down s 1000
           {| Approve.spender := Approve.ROUTER; Approve.approve_amount := 1000 |}
           {| Approve.spender := Approve.ROUTER; Approve.approve_amount := 1000 |}).
  - reflexivity.
  - reflexivity.
  - simpl. lia.
  - simpl. lia.
Defined.

(** C9 (counterexample): approve(0) fails, the first re-approve fails and
    the RPC rotation in its handler raises: [_force_reset_allowance] raises
    after one re-approve attempt, not after [SWAP_SEND_MAX_ATTEMPTS]. *)
Lemma C9_reset_raises_after_one_reapprove :
  let '(r, s') := Approve.force_reset_allowance Approve.env_rotation_down 1000 Approve.st0 in
  r = Exc "All RPC endpoints failed to respond"%string
  /\ List.length (filter (Approve.is_reapprove Approve.ROUTER 1000) (Approve.trace s')) = 1%nat
  /\ (1 < Config.SWAP_SEND_MAX_ATTEMPTS)%nat.
Proof. vm_compute. auto. Qed.

(** C9 (amended): the outcome of the approve(0) phase never matters.
    [_force_reset_allowance] returns normally exactly when the payload
    request gives an item and some re-approve attempt [k] within
    [SWAP_SEND_MAX_ATTEMPTS] succeeds, each earlier attempt having failed
    and the rotation after it having succeeded; otherwise it raises. When
    the payload is obtained, approve(0), the delay and a first re-approve
    always happen, in this order. *)
Theorem C9_force_reset_outcome (E : Approve.env) (amt : Z) (s : Approve.st) :
  (fst (Approve.force_reset_allowance E amt s) = Ret tt
   <-> exists it, Approve.approve_api E (Approve.napi s) amt = Approve.PItem it
        /\ exists k, (k < Config.SWAP_SEND_MAX_ATTEMPTS)%nat
             /\ Approve.tx_ok E (S (Approve.ntx s) + k) = true
             /\ forall j, (j < k)%nat -> Approve.tx_ok E (S (Approve.ntx s) + j) = false
                                    /\ Approve.rotate_ok E (Approve.nrot s + j) = true)
  /\ (forall it, Approve.approve_api E (Approve.napi s) amt = Approve.PItem it ->
      exists ok0 ok1 rest,
        Approve.trace (snd (Approve.force_reset_allowance E amt s))
        = Approve.trace s ++ Approve.ETx (Approve.spender it) 0 ok0 :: Approve.ESleep
            :: Approve.ETx (Approve.spender it) (Approve.approve_amount it) ok1 :: rest).
Proof.
  destruct (Approve.approve_api E (Approve.napi s) amt) as [m| |it] eqn:Ha.
  - destruct (ApproveFacts.force_reset_no_payload E amt s) as [e He];
      [rewrite Ha; discriminate|].
    rewrite He. split; [split; [discriminate|intros [it [H _]]; discriminate]|].
    intros it H; discriminate.
  - destruct (ApproveFacts.force_reset_no_payload E amt s) as [e He];
      [rewrite Ha; discriminate|].
    rewrite He. split; [split; [discriminate|intros [it [H _]]; discriminate]|].
    intros it H; discriminate.
  - rewrite (ApproveFacts.force_reset_unfold E amt s it Ha).
    match goal with
    | |- context [Approve.send_loop ?a ?b ?c ?d ?f ?l ?s2] =>
        pose proof (ApproveFacts.send_loop_ok a b c d f l s2) as Hok;
        pose proof (ApproveFacts.send_loop_first a b c d 2 l s2) as Hf;
        change (S 2) with f in Hf;
        destruct (Approve.send_loop a b c d f l s2) as [r3 s3] eqn:Hs
    end.
    cbn [Approve.ntx Approve.nrot] in Hok. split.
    + destruct r3 as [u|e]; cbn [fst] in *.
      * split; [intros _|reflexivity].
        exists it. split; [reflexivity|]. apply Hok. eexists. reflexivity.
      * split; [discriminate|].
        intros [it' [Hit Hk]]. injection Hit as <-.
        apply Hok in Hk. destruct Hk as [h Hh]. discriminate.
    + intros it' Hit. injection Hit as <-.
      destruct Hf as [ok1 [rest Hf]].
      exists (Approve.tx_ok E (Approve.ntx s)), ok1, rest.
      destruct r3; cbn [snd] in *; rewrite Hf; cbn [Approve.trace];
        rewrite <- !app_assoc; reflexivity.
Qed.





(* ================================================================== *)
(** * Further properties of the code *)

(** ** [RpcRotator.__init__] *)
Module RpcInitFacts.
Import RpcInit.

Lemma prefix_app (p t : string) : String.prefix p (p ++ t) = true.
Proof.
  induction p as [|a p IH]; [destruct t; reflexivity|].
  simpl. destruct (ascii_dec a a); [exact IH|congruence].
Qed.

Lemma with_scheme_has (u : string) : has_scheme (with_scheme u) = true.
Proof.
  unfold with_scheme. destruct (has_scheme u) eqn:E; [exact E|].
  unfold has_scheme, PyStr.startswith. rewrite (prefix_app "https://" u).
  rewrite orb_true_r. reflexivity.
Qed.

Lemma NoDup_snoc {A} (l : list A) (x : A) : NoDup l -> ~ In x l -> NoDup (l ++ [x]).
Proof.
  induction l as [|a l IH]; intros Hd Hn; simpl; [constructor; [auto|constructor]|].
  inversion Hd; subst. constructor.
  - rewrite in_app_iff. simpl. intros [H|[H|[]]]; [contradiction|subst; apply Hn; left; reflexivity].
  - apply IH; auto. intros H; apply Hn; right; exact H.
Qed.

Lemma norm_loop_in : forall us norm v,
  In v (norm_loop us norm)
  <-> In v norm \/ exists u, In u us /\ stripped u <> EmptyString /\ v = with_scheme (stripped u).
Proof.
  induction us as [|u t IH]; intros norm v; simpl.
  - split; [auto|intros [H|[u [[] _]]]; exact H].
  - destruct (String.eqb (stripped u) EmptyString) eqn:Eb.
    + apply String.eqb_eq in Eb. rewrite IH. split.
      * intros [H|[u' [Hu' Hr]]]; [left; exact H|right; exists u'; auto].
      * intros [H|[u' [[<-|Hu'] [Hb Hr]]]]; [left; exact H|contradiction|right; exists u'; auto].
    + apply String.eqb_neq in Eb.
      destruct (existsb (String.eqb (with_scheme (stripped u))) norm) eqn:Ex.
      * rewrite IH. split.
        -- intros [H|[u' [Hu' Hr]]]; [left; exact H|right; exists u'; auto].
        -- intros [H|[u' [[<-|Hu'] [Hb Hr]]]]; [left; exact H| |right; exists u'; auto].
           left. subst v. apply existsb_exists in Ex as [w [Hw Hq]].
           apply String.eqb_eq in Hq. subst w. exact Hw.
      * rewrite IH, in_app_iff. simpl. split.
        -- intros [[H|[H|[]]]|[u' [Hu' Hr]]]; [left; exact H| |right; exists u'; auto].
           right. exists u. auto.
        -- intros [H|[u' [[<-|Hu'] [Hb Hr]]]]; [left; left; exact H|left; right; left; auto|].
           right. exists u'. auto.
Qed.

Lemma norm_loop_nodup : forall us norm, NoDup norm -> NoDup (norm_loop us norm).
Proof.
  induction us as [|u t IH]; intros norm Hd; simpl; [exact Hd|].
  destruct (String.eqb (stripped u) EmptyString); [apply IH; exact Hd|].
  destruct (existsb (String.eqb (with_scheme (stripped u))) norm) eqn:Ex; apply IH; [exact Hd|].
  apply NoDup_snoc; [exact Hd|]. intros Hin.
  assert (existsb (String.eqb (with_scheme (stripped u))) norm = true)
    by (apply existsb_exists; exists (with_scheme (stripped u)); split; [exact Hin|apply String.eqb_refl]).
  congruence.
Qed.

Lemma norm_loop_scheme : forall us norm,
  Forall (fun v => has_scheme v = true) norm ->
  Forall (fun v => has_scheme v = true) (norm_loop us norm).
Proof.
  induction us as [|u t IH]; intros norm Hf; simpl; [exact Hf|].
  destruct (String.eqb (stripped u) EmptyString); [apply IH; exact Hf|].
  destruct (existsb (String.eqb (with_scheme (stripped u))) norm); apply IH; [exact Hf|].
  apply Forall_app. split; [exact Hf|]. constructor; [apply with_scheme_has|constructor].
Qed.

End RpcInitFacts.

(** [RpcRotator(urls, proxy)] keeps each non-blank entry, stripped and
    given [https://] when it has none of the four schemes, once, in order of
    first appearance: the URL list has no duplicates, every URL has a
    scheme, the cursor starts at 0, and the URLs are exactly the
    normalised non-blank entries. *)
Theorem rotator_init_normalises (us : list (option string)) (proxy : option string)
        (r : Rpc.rotator) :
  RpcInit.rotator_init us proxy = Ret r ->
  NoDup (Rpc.urls r)
  /\ Forall (fun v => RpcInit.has_scheme v = true) (Rpc.urls r)
  /\ Rpc.idx r = 0%nat
  /\ (forall v, In v (Rpc.urls r)
        <-> exists u, In u us /\ RpcInit.stripped u <> EmptyString
                /\ v = RpcInit.with_scheme (RpcInit.stripped u)).
Proof.
  unfold RpcInit.rotator_init. intros H.
  destruct (RpcInit.norm_loop us []) as [|v0 rest] eqn:E; [discriminate|].
  injection H as <-. cbn [Rpc.urls Rpc.idx]. rewrite <- E.
  split; [apply RpcInitFacts.norm_loop_nodup; constructor|].
  split; [apply RpcInitFacts.norm_loop_scheme; constructor|].
  split; [reflexivity|].
  intros v. rewrite RpcInitFacts.norm_loop_in. simpl. split; [intros [[]|H]; exact H|auto].
Qed.

(** Witness: a bare host, a blank entry, the same host with its scheme and
    a WS endpoint give two URLs. *)
Lemma rotator_init_normalises_witness :
  exists r, RpcInit.rotator_init
              [Some " rpc.a "; None; Some "https://rpc.a"; Some "wss://rpc.b"]%string None = Ret r
         /\ NoDup (Rpc.urls r)
         /\ Forall (fun v => RpcInit.has_scheme v = true) (Rpc.urls r)
         /\ Rpc.idx r = 0%nat.
Proof.
  eexists. split; [vm_compute; reflexivity|].
  destruct (rotator_init_normalises
              [Some " rpc.a "; None; Some "https://rpc.a"; Some "wss://rpc.b"]%string None
              {| Rpc.urls := ["https://rpc.a"; "wss://rpc.b"]%string; Rpc.idx := 0; Rpc.proxy := false |}
              ltac:(vm_compute; reflexivity)) as [H1 [H2 [H3 _]]].
  auto.
Defined.

(** [RpcRotator(urls)] raises [ValueError] exactly when every entry is
    [None] or blank after stripping. *)
Theorem rotator_init_raises_iff_blank (us : list (option string)) (proxy : option string) :
  (exists e, RpcInit.rotator_init us proxy = Exc e)
  <-> forall u, In u us -> RpcInit.stripped u = EmptyString.
Proof.
  unfold RpcInit.rotator_init. split.
  - intros [e He] u Hu.
    destruct (RpcInit.norm_loop us []) as [|v0 rest] eqn:E; [|discriminate].
    destruct (String.eqb (RpcInit.stripped u) EmptyString) eqn:Eb; [apply String.eqb_eq; exact Eb|].
    apply String.eqb_neq in Eb. exfalso.
    assert (Hin : In (RpcInit.with_scheme (RpcInit.stripped u)) (RpcInit.norm_loop us []))
      by (apply RpcInitFacts.norm_loop_in; right; exists u; auto).
    rewrite E in Hin. destruct Hin.
  - intros Hall.
    destruct (RpcInit.norm_loop us []) as [|v0 rest] eqn:E; [eexists; reflexivity|].
    exfalso. assert (Hin : In v0 (RpcInit.norm_loop us [])) by (rewrite E; left; reflexivity).
    apply RpcInitFacts.norm_loop_in in Hin as [[]|[u [Hu [Hb _]]]].
    exact (Hb (Hall u Hu)).
Qed.

(** ** [RpcRotator.connect] *)
Module RpcConnectFacts.
Import Rpc.

Lemma map_seq_succ {A} (g : nat -> A) (k : nat) :
  map g (seq 0 (S k)) = g 0%nat :: map (fun j => g (S j)) (seq 0 k).
Proof. simpl. f_equal. rewrite <- seq_shift, map_map. reflexivity. Qed.

Lemma connect_loop_first (E : env) (r : rotator) :
  forall m idx att f, (m < f)%nat ->
  (forall j, (j < m)%nat ->
     let u := nth ((idx + j) mod List.length (urls r)) (urls r) EmptyString in
     make_web3 E (proxy r) u && responds E (att + j) u = false) ->
  (let u := nth ((idx + m) mod List.length (urls r)) (urls r) EmptyString in
   make_web3 E (proxy r) u && responds E (att + m) u = true) ->
  connect_loop E r idx att f
  = (Ret (nth ((idx + m) mod List.length (urls r)) (urls r) EmptyString), (idx + S m)%nat,
     map (fun j => nth ((idx + j) mod List.length (urls r)) (urls r) EmptyString) (seq 0 (S m))).
Proof.
  induction m as [|m IH]; intros idx att f Hf Hfail Hok; destruct f as [|f]; try lia.
  - cbn [connect_loop]. simpl in Hok. rewrite ?Nat.add_0_r in *. rewrite Hok.
    simpl. rewrite Nat.add_0_r, Nat.add_1_r. reflexivity.
  - cbn [connect_loop].
    pose proof (Hfail 0%nat ltac:(lia)) as H0. simpl in H0. rewrite ?Nat.add_0_r in H0.
    rewrite H0.
    rewrite (IH (S idx) (S att) f).
    + rewrite (map_seq_succ _ (S m)). rewrite Nat.add_0_r.
      replace (S idx + m)%nat with (idx + S m)%nat by lia.
      replace (S idx + S m)%nat with (idx + S (S m))%nat by lia.
      rewrite (map_ext_in (fun j => nth ((S idx + j) mod List.length (urls r)) (urls r) EmptyString)
                          (fun j => nth ((idx + S j) mod List.length (urls r)) (urls r) EmptyString))
        by (intros i _; do 2 f_equal; lia).
      reflexivity.
    + lia.
    + intros j Hj. simpl.
      pose proof (Hfail (S j) ltac:(lia)) as Hj'. simpl in Hj'.
      rewrite !Nat.add_succ_r in Hj'. exact Hj'.
    + simpl. simpl in Hok. rewrite !Nat.add_succ_r in Hok. exact Hok.
Qed.

Lemma connect_loop_ret (E : env) (r : rotator) :
  urls r <> [] ->
  forall f idx att u i l,
  connect_loop E r idx att f = (Ret u, i, l) ->
  In u (urls r) /\ make_web3 E (proxy r) u = true
  /\ i = (idx + List.length l)%nat /\ exists l', l = l' ++ [u].
Proof.
  intros Hne. induction f as [|f IH]; intros idx att u i l H; [discriminate|].
  cbn [connect_loop] in H.
  assert (Hin : In (nth (idx mod List.length (urls r)) (urls r) EmptyString) (urls r))
    by (apply nth_In, Nat.mod_upper_bound; destruct (urls r); simpl; [congruence|lia]).
  destruct (make_web3 E (proxy r) (nth (idx mod List.length (urls r)) (urls r) EmptyString)
            && responds E att (nth (idx mod List.length (urls r)) (urls r) EmptyString)) eqn:Ok.
  - injection H as <- <- <-. apply andb_true_iff in Ok as [Hm _].
    split; [exact Hin|]. split; [exact Hm|]. split; [simpl; lia|]. exists []. reflexivity.
  - destruct (connect_loop E r (S idx) (S att) f) as [[res idx'] tried] eqn:Ec.
    injection H as Hres Hi Hl. subst res idx' l.
    destruct (IH (S idx) (S att) u i tried Ec) as [H1 [H2 [H3 [l' H4]]]].
    split; [exact H1|]. split; [exact H2|]. split; [simpl; lia|].
    exists (nth (idx mod List.length (urls r)) (urls r) EmptyString :: l'). rewrite H4. reflexivity.
Qed.

End RpcConnectFacts.

(** [connect(tries)] walks the URLs cyclically from the cursor: when the
    endpoints at cursor positions [0 .. m-1] are skipped or do not answer
    and the one at position [m] answers, with [m] below the number of tries
    ([tries or len(urls)]), it returns that URL, advances the cursor by
    [m + 1] and has tried exactly those [m + 1] URLs. *)
Theorem connect_returns_first_responding (E : Rpc.env) (r : Rpc.rotator)
        (tries : option nat) (m : nat) :
  let url j := nth ((Rpc.idx r + j) mod List.length (Rpc.urls r)) (Rpc.urls r) EmptyString in
  (m < match tries with None | Some O => List.length (Rpc.urls r) | Some k => k end)%nat ->
  (forall j, (j < m)%nat ->
     Rpc.make_web3 E (Rpc.proxy r) (url j) && Rpc.responds E j (url j) = false) ->
  Rpc.make_web3 E (Rpc.proxy r) (url m) && Rpc.responds E m (url m) = true ->
  Rpc.connect E r tries = (Ret (url m), (Rpc.idx r + S m)%nat, map url (seq 0 (S m))).
Proof.
  intros url Hm Hfail Hok. unfold Rpc.connect.
  apply RpcConnectFacts.connect_loop_first; [exact Hm|exact Hfail|exact Hok].
Qed.

(** Witness: a proxy is set, so the WS endpoint under the cursor is skipped
    and the HTTP endpoint after it answers on the second try. *)
Lemma connect_returns_first_responding_witness :
  Rpc.connect
    {| Rpc.ws_available := true; Rpc.is_connected := fun _ _ => Some true;
       Rpc.block_number_ok := fun _ _ => true |}
    {| Rpc.urls := ["https://rpc.a"; "wss://rpc.b"]%string; Rpc.idx := 1; Rpc.proxy := true |} None
  = (Ret "https://rpc.a"%string, 3%nat, ["wss://rpc.b"; "https://rpc.a"]%string).
Proof.
  apply (connect_returns_first_responding
    {| Rpc.ws_available := true; Rpc.is_connected := fun _ _ => Some true;
       Rpc.block_number_ok := fun _ _ => true |}
    {| Rpc.urls := ["https://rpc.a"; "wss://rpc.b"]%string; Rpc.idx := 1; Rpc.proxy := true |}
    None 1).
  - simpl; lia.
  - intros j Hj. assert (j = 0%nat) by lia. subst j. vm_compute. reflexivity.
  - vm_compute. reflexivity.
Defined.

(** Whatever [connect] returns is one of the rotator's URLs, is the last one
    tried, and the cursor has advanced by the number of URLs tried; with a
    proxy set it is never a [ws://] or [wss://] URL. *)
Theorem connect_result_sound (E : Rpc.env) (r : Rpc.rotator) (tries : option nat)
        (u : string) (i : nat) (l : list string) :
  Rpc.urls r <> [] ->
  Rpc.connect E r tries = (Ret u, i, l) ->
  In u (Rpc.urls r)
  /\ (Rpc.proxy r = true ->
      PyStr.startswith "ws://" u = false /\ PyStr.startswith "wss://" u = false)
  /\ i = (Rpc.idx r + List.length l)%nat
  /\ exists l', l = l' ++ [u].
Proof.
  intros Hne H. unfold Rpc.connect in H.
  destruct (RpcConnectFacts.connect_loop_ret E r Hne _ _ _ _ _ _ H) as [H1 [H2 [H3 H4]]].
  split; [exact H1|]. split; [|split; [exact H3|exact H4]].
  intros Hp. unfold Rpc.make_web3 in H2. rewrite Hp in H2.
  destruct (PyStr.startswith "ws://" u); destruct (PyStr.startswith "wss://" u);
    simpl in H2; try discriminate; auto.
Qed.

(** Witness: the HTTP endpoint answers with a proxy set. *)
Lemma connect_result_sound_witness :
  In "https://rpc.a"%string ["https://rpc.a"; "wss://rpc.b"]%string
  /\ (true = true ->
      PyStr.startswith "ws://" "https://rpc.a" = false
      /\ PyStr.startswith "wss://" "https://rpc.a" = false)
  /\ 3%nat = (1 + List.length ["wss://rpc.b"; "https://rpc.a"]%string)%nat
  /\ exists l', ["wss://rpc.b"; "https://rpc.a"]%string = l' ++ ["https://rpc.a"%string].
Proof.
  apply (connect_result_sound
    {| Rpc.ws_available := true; Rpc.is_connected := fun _ _ => Some true;
       Rpc.block_number_ok := fun _ _ => true |}
    {| Rpc.urls := ["https://rpc.a"; "wss://rpc.b"]%string; Rpc.idx := 1; Rpc.proxy := true |}
    None).
  - discriminate.
  - vm_compute. reflexivity.
Defined.
